(** * infinibatch: chunked dataset pipeline

  A shallow embedding of [infinibatch/common/chunked_dataset.py].

  The module is a pipeline of three Python generators
  ([chunked_data_generator], [buffered_shuffle_generator],
  [transform_generator]) composed by [ChunkedDataset.__iter__].
  A Python generator is a suspendable frame: here each generator is a
  step function over an explicit frame state, one step running the body
  up to its next observable point.  The process-wide [random] state and
  the list objects reachable from a dataset live in a [world] that is
  threaded through every step. *)

From Stdlib Require Import ZArith Lia.
From stdpp Require Import base option list gmap strings sorting.

Local Open Scope Z_scope.
Local Open Scope nat_scope.

(** ** Exceptions raised by the module and the library calls it makes *)

(** An exception is known by the class it is raised under.  OSError
    stands for itself and for the subclasses that the operating system
    calls raise (FileNotFoundError, PermissionError, ...), which the
    module never tells apart.  UnicodeDecodeError is a subclass of
    ValueError in Python: a handler for ValueError catches both; they are
    raised at different places, and are kept apart here. *)
Inductive exn : Type :=
| ValueError          (* raise ValueError; random.randrange on an empty range *)
| IndexError          (* list index out of range *)
| OSError             (* os.scandir; gzip.open on a path that cannot be
                         opened; a file that is not a gzip file *)
| AttributeError      (* .copy() on something that is not a list object *)
| UnicodeDecodeError  (* .decode('utf-8') on bytes that are not UTF-8 *)
| EOFError            (* .read() on a gzip stream that ends too early *)
| TypeError           (* a call of an object that cannot be called so *)
| Exception (cls : string).
                      (* any other, by the name of its class: zlib.error,
                         KeyError, ..., whatever a transform raises *)

Global Instance exn_eq_dec : EqDecision exn.
Proof. solve_decision. Defined.

(** ** The random module

  The state of Python's global generator is a tape of raw draws.
  [randbelow n] consumes one draw and reduces it into [0, n); an
  exhausted tape keeps answering 0.  Every sequence of in-range answers
  is the reading of some tape ([randbelow_exact]). *)

Module random.

Definition tape : Type := list nat.

Definition randbelow (n : nat) (t : tape) : nat * tape :=
  match t with
  | [] => (0, [])
  | d :: t' => (d mod n, t')
  end.

(** [random.randrange(start, stop)]: ValueError on an empty range,
    otherwise [start + randbelow (stop - start)]. *)
Definition randrange (start stop : nat) (t : tape) : exn + nat * tape :=
  if decide (start < stop)
  then let '(r, t') := randbelow (stop - start) t in inr (start + r, t')
  else inl ValueError.

(** [x[i], x[j] = x[j], x[i]] on a list value. *)
Definition swap {A} (i j : nat) (x : list A) : list A :=
  match x !! i, x !! j with
  | Some a, Some b => <[i := b]> (<[j := a]> x)
  | _, _ => x
  end.

(** [random.shuffle(x)], the Fisher-Yates loop of CPython:
    [for i in reversed(range(1, len(x))): j = randbelow(i + 1);
     x[i], x[j] = x[j], x[i]].
    [shuffle_from i] runs the iterations i, i-1, ..., 1. *)
Fixpoint shuffle_from {A} (i : nat) (x : list A) (t : tape) : list A * tape :=
  match i with
  | 0 => (x, t)
  | S i' =>
      let '(j, t') := randbelow (S i) t in
      shuffle_from i' (swap i j x) t'
  end.

Definition shuffle {A} (x : list A) (t : tape) : list A * tape :=
  shuffle_from (length x - 1) x t.

(** The ranges of the draws of [shuffle_from i]: [randbelow(i + 1)], then
    [randbelow(i)], down to [randbelow(2)]; those of [shuffle] on a list
    of [n] items. *)
Fixpoint shuffle_from_bounds (i : nat) : list nat :=
  match i with
  | 0 => []
  | S i' => S i :: shuffle_from_bounds i'
  end.

Definition shuffle_bounds (n : nat) : list nat := shuffle_from_bounds (n - 1).

(** A tape of exactly the draws asked for, each as [randbelow] returns
    it: the draw for the range [b] is below [b]. *)
Definition in_range (t : tape) (bounds : list nat) : Prop :=
  Forall2 lt t bounds.

(** [k] calls of [randrange(0, n)] one after the other. *)
Fixpoint slot_draws (n k : nat) (t : tape) : list nat * tape :=
  match k with
  | 0 => ([], t)
  | S k' =>
      let '(index, t1) := randbelow n t in
      let '(indices, t2) := slot_draws n k' t1 in
      (index :: indices, t2)
  end.

End random.

(** ** The world: list objects on the heap, and the random state *)

Definition loc : Type := nat.

Record world : Type := World {
heap : gmap loc (list string);
rng : random.tape
}.

Definition set_rng (t : random.tape) (w : world) : world :=
{| heap := heap w; rng := t |}.

Definition set_heap (h : gmap loc (list string)) (w : world) : world :=
{| heap := h; rng := rng w |}.

(** [list.copy()] and [[]]: a new list object at an unused address. *)
Definition alloc (l : list string) (w : world) : loc * world :=
let a := fresh (dom (heap w)) in
(a, set_heap (<[a := l]> (heap w)) w).

(** ** Callables

    What the module does with the object passed as [transform]: it tests
    its truth value ([if transform:], that is [__bool__], else [__len__],
    else true) and, when that is true, calls it on each item.  Either may
    raise.  The result of a call depends on the item only: a value, or an
    exception; an object that cannot be called raises TypeError on every
    item. *)

Record callable (V : Type) : Type := Callable {
truthy : exn + bool;
call : V → exn + V
}.
Arguments Callable {V} _ _.
Arguments truthy {V} _.
Arguments call {V} _ _.


(** ** Generators as step functions *)

Inductive step_result (St A : Type) : Type :=
| Tau (s : St) (w : world)              (* the body ran on, nothing yielded yet *)
| Yield (a : A) (s : St) (w : world)    (* suspended at a yield *)
| Stop (w : world)                     (* the body returned: StopIteration *)
| Raise (e : exn) (w : world).         (* an exception left the body *)
Arguments Tau {St A} s w.
Arguments Yield {St A} a s w.
Arguments Stop {St A} w.
Arguments Raise {St A} e w.

Definition stepper (St A : Type)   : Type := St → world → step_result St A.

(** How a consumer that drains a generator leaves it. *)
Inductive outcome (St : Type) : Type :=
| Finished (w : world)
| Raised (e : exn) (w : world)
| Suspended (s : St) (w : world).
Arguments Finished {St} w.
Arguments Raised {St} e w.
Arguments Suspended {St} s w.

Definition world_of {St} (o : outcome St) : world :=
match o with
| Finished w | Raised _ w | Suspended _ w => w
end.

(** [run step fuel s w]: the items yielded within [fuel] steps, in order,
  and where the generator stands afterwards. *)
Fixpoint run {St A} (step : stepper St A) (fuel : nat) (s : St) (w : world)
: list A * outcome St :=
match fuel with
| 0 => ([], Suspended s w)
| S n =>
    match step s w with
    | Tau s' w' => run step n s' w'
    | Yield a s' w' => let '(out, o) := run step n s' w' in (a :: out, o)
    | Stop w' => ([], Finished w')
    | Raise e w' => ([], Raised e w')
    end
end.

(** The generator, drained, yields exactly [out] and ends in [o]:
  from some amount of fuel on, every run gives that result. *)
Definition produces {St A} (step : stepper St A) (s : St) (w : world)
  (out : list A) (o : outcome St) : Prop :=
∃ n, ∀ m, n ≤ m → run step m s w = (out, o).

(** A Python list (or any finite iterable that touches nothing else)
  used as a data source. *)
Definition list_step {A} : stepper (list A) A :=
λ l w, match l with
       | [] => Stop w
       | a :: l' => Yield a l' w
       end.

(** ** buffered_shuffle_generator

  Items are Python values: [None] is Python's None, [Some a] any other
  value.  The buffer is a local list object that never escapes the
  frame, so it is kept by value. *)

Section buffered_shuffle.
Context {St A : Type}.
Abbreviation value := (option A).

Inductive bsg_state : Type :=
| BsgStart (data : St) (buffer_size : Z)
    (* called, body not yet entered *)
| BsgLoop (data : St) (buffer : list value)
    (* at the head of [for item in data] *)
| BsgYielded (data : St) (buffer : list value) (index : nat) (item : value)
    (* suspended at [yield buffer[index]], [buffer[index] = item] pending *)
| BsgFlush (rest : list value).
    (* in [for item in buffer] after the shuffle, [rest] still to visit *)

Definition bsg_step (data_step : stepper St value) : stepper bsg_state value :=
  λ s w,
  match s with
  | BsgStart data buffer_size =>
      if decide (buffer_size ≤ 0)%Z
      then Raise ValueError w
      else Tau (BsgLoop data (replicate (Z.to_nat buffer_size) None)) w
  | BsgLoop data buffer =>
      match data_step data w with
      | Tau data' w' => Tau (BsgLoop data' buffer) w'
      | Raise e w' => Raise e w'
      | Yield item data' w' =>
          match random.randrange 0 (length buffer) (rng w') with
          | inl e => Raise e w'
          | inr (index, t') =>
              match buffer !! index with
              | None => Raise IndexError (set_rng t' w')
              | Some (Some y) =>
                  Yield (Some y) (BsgYielded data' buffer index item) (set_rng t' w')
              | Some None =>
                  Tau (BsgLoop data' (<[index := item]> buffer)) (set_rng t' w')
              end
          end
      | Stop w' =>
          let '(buffer', t') := random.shuffle buffer (rng w') in
          Tau (BsgFlush buffer') (set_rng t' w')
      end
  | BsgYielded data buffer index item =>
      Tau (BsgLoop data (<[index := item]> buffer)) w
  | BsgFlush [] => Stop w
  | BsgFlush (None :: rest) => Tau (BsgFlush rest) w
  | BsgFlush (Some y :: rest) => Yield (Some y) (BsgFlush rest) w
  end.

End buffered_shuffle.
Arguments bsg_state : clear implicits.

Definition buffered_shuffle_generator {St A} (data : St) (buffer_size : Z)
: bsg_state St A := BsgStart data buffer_size.

(** The generator reading from a Python list. *)
Definition bsg_list_step {A} : stepper (bsg_state (list (option A)) A) (option A) :=
  bsg_step list_step.
Arguments bsg_list_step {A} _ _ /.

(** ** transform_generator *)

Section transform.
Context {St V : Type}.

Inductive tg_state : Type :=
| TgStart (data : St) (transform : option (callable V))
    (* called, body not yet entered; [None] is Python's None *)
| TgMap (data : St) (transform : callable V)
    (* in the loop under [if transform:] *)
| TgPass (data : St).
    (* in the loop under [else:] *)

Definition tg_step (data_step : stepper St V) : stepper tg_state V :=
  λ s w,
  match s with
  | TgStart data (Some f) =>
      match truthy f with
      | inl e => Raise e w
      | inr true => Tau (TgMap data f) w
      | inr false => Tau (TgPass data) w
      end
  | TgStart data None => Tau (TgPass data) w
  | TgMap data f =>
      match data_step data w with
      | Tau data' w' => Tau (TgMap data' f) w'
      | Yield item data' w' =>
          match call f item with
          | inr y => Yield y (TgMap data' f) w'
          | inl e => Raise e w'
          end
      | Stop w' => Stop w'
      | Raise e w' => Raise e w'
      end
  | TgPass data =>
      match data_step data w with
      | Tau data' w' => Tau (TgPass data') w'
      | Yield item data' w' => Yield item (TgPass data') w'
      | Stop w' => Stop w'
      | Raise e w' => Raise e w'
      end
  end.

End transform.
Arguments tg_state : clear implicits.

Definition transform_generator {St V} (data : St)
    (transform : option (callable V))
  : tg_state St V := TgStart data transform.

(** ** The file system, as the module sees it *)

(** What [os.scandir] reports for one entry. *)
Record DirEntry : Type := {
  name : string;
  is_file : bool
}.

(** [scandir path] lists a directory, in whatever order the system gives,
    or fails with an OSError.  [gzip_lines path] is what
    [gzip.open(path, 'r').read().decode('utf-8').splitlines()] gives: the
    lines, or the exception of the call that failed (an OSError from
    [gzip.open] or from [read] on a file that is not gzip, EOFError or
    zlib.error from [read] on a damaged stream, UnicodeDecodeError from
    [decode]). *)
Record filesystem : Type := {
  scandir : string → option (list DirEntry);
  gzip_lines : string → exn + list string
}.

(** [s.endswith(suffix)] *)
Fixpoint endswith (s suffix : string) : bool :=
  if String.eqb s suffix then true
  else match s with
       | EmptyString => false
       | String _ s' => endswith s' suffix
       end.

(** [os.path.join(a, b)] on POSIX, two components. *)
Definition path_join (a b : string) : string :=
  if String.prefix "/" b then b
  else if String.eqb a "" || endswith a "/" then a +:+ b
  else a +:+ "/" +:+ b.

(** ** chunked_data_generator

    The only list object this generator mutates is its own copy; the
    copy lives on the heap next to the list the caller passed. *)

Section chunked_data.
Context (fs : filesystem).
Context {A : Type} (str : string → A).

Inductive cdg_state : Type :=
| CdgStart (chunk_file_paths : loc) (shuffle_chunks : bool)
    (* called, body not yet entered; the argument is the caller's list *)
| CdgChunks (chunk_file_paths : loc) (i : nat)
    (* at the head of the outer loop; the variable now names the copy,
       [i] is the position of the list iterator *)
| CdgItems (chunk_file_paths : loc) (i : nat) (data : list string).
    (* in [for item in data], [data] still to yield *)

Definition cdg_step : stepper cdg_state (option A) :=
  λ s w,
  match s with
  | CdgStart chunk_file_paths shuffle_chunks =>
      match heap w !! chunk_file_paths with
      | None => Raise AttributeError w
      | Some l =>
          let '(copy, w1) := alloc l w in
          if shuffle_chunks
          then let '(l', t') := random.shuffle l (rng w1) in
               Tau (CdgChunks copy 0)
                   (set_rng t' (set_heap (<[copy := l']> (heap w1)) w1))
          else Tau (CdgChunks copy 0) w1
      end
  | CdgChunks chunk_file_paths i =>
      match heap w !! chunk_file_paths with
      | None => Raise AttributeError w
      | Some l =>
          match l !! i with
          | None => Stop w
          | Some chunk_file_path =>
              match gzip_lines fs chunk_file_path with
              | inl e => Raise e w
              | inr data => Tau (CdgItems chunk_file_paths (S i) data) w
              end
          end
      end
  | CdgItems chunk_file_paths i [] => Tau (CdgChunks chunk_file_paths i) w
  | CdgItems chunk_file_paths i (item :: data) =>
      Yield (Some (str item)) (CdgItems chunk_file_paths i data) w
  end.

Definition chunked_data_generator (chunk_file_paths : loc) (shuffle_chunks : bool)
  : cdg_state := CdgStart chunk_file_paths shuffle_chunks.

(** ** ChunkedDataset *)

Record ChunkedDataset : Type := {
  chunk_file_paths : loc;      (* the list object behind the attribute *)
  shuffle : bool;
  buffer_size : Z;
  transform : option (callable (option A))
}.

(** [self.chunk_file_paths.append(x)] *)
Definition list_append (a : loc) (x : string) (w : world) : world :=
  set_heap (alter (λ l, l ++ [x]) a (heap w)) w.

(** [self.chunk_file_paths.sort()]: strings compare by code point. *)
Definition list_sort (a : loc) (w : world) : world :=
  set_heap (alter (merge_sort String.le) a (heap w)) w.

(** [subpath.is_file() and subpath.name.endswith('.gz')] *)
Definition is_chunk (subpath : DirEntry) : bool :=
  is_file subpath && endswith (name subpath) ".gz".

(** The body of the loop over [os.scandir(path)]. *)
Definition scan_entry (path : string) (a : loc) (w : world) (subpath : DirEntry)
  : world :=
  if is_chunk subpath
  then list_append a (path_join path (name subpath)) w
  else w.

Definition ChunkedDataset_init (path : string) (shuffle : bool)
    (buffer_size : Z) (transform : option (callable (option A))) (w : world)
  : exn + ChunkedDataset * world :=
  let '(a, w1) := alloc [] w in
  match scandir fs path with
  | None => inl OSError
  | Some entries =>
      let w2 := foldl (scan_entry path a) w1 entries in
      let w3 := list_sort a w2 in
      inr ({| chunk_file_paths := a; shuffle := shuffle;
              buffer_size := buffer_size; transform := transform |}, w3)
  end.

(** [gen] is first the chunk generator, then possibly the shuffle
    generator wrapped around it. *)
Definition gen_state : Type := cdg_state + bsg_state cdg_state A.

Definition gen_step : stepper gen_state (option A) :=
  λ s w,
  match s with
  | inl c =>
      match cdg_step c w with
      | Tau c' w' => Tau (inl c') w'
      | Yield a c' w' => Yield a (inl c') w'
      | Stop w' => Stop w'
      | Raise e w' => Raise e w'
      end
  | inr b =>
      match bsg_step cdg_step b w with
      | Tau b' w' => Tau (inr b') w'
      | Yield a b' w' => Yield a (inr b') w'
      | Stop w' => Stop w'
      | Raise e w' => Raise e w'
      end
  end.

Definition ChunkedDataset_iter (self : ChunkedDataset)
  : tg_state gen_state (option A) :=
  let gen := chunked_data_generator (chunk_file_paths self) (shuffle self) in
  let gen : gen_state :=
    if shuffle self
    then inr (buffered_shuffle_generator gen (buffer_size self))
    else inl gen in
  transform_generator gen (transform self).

Definition iter_step : stepper (tg_state gen_state (option A)) (option A) :=
  tg_step gen_step.

End chunked_data.

(** ** The shuffle generator over a list, loop by loop

    The same body read as a function of the whole input: what the first
    loop yields and leaves in the buffer, then what the second loop
    yields.  [bsg_produces] below shows the generator drains to this. *)

Section buffered_shuffle_loops.
Context {A : Type}.
Abbreviation value := (option A).

(** [for item in buffer: if item is not None: yield item] *)
Definition flush_loop (buffer : list value) : list value :=
  filter is_Some buffer.

(** [for item in data: ...] from a given buffer and random state. *)
Fixpoint fill_loop (data : list value) (buffer : list value) (t : random.tape)
  : list value * list value * random.tape :=
  match data with
  | [] => ([], buffer, t)
  | item :: data' =>
      let '(index, t1) := random.randbelow (length buffer) t in
      let '(out, buffer', t2) := fill_loop data' (<[index := item]> buffer) t1 in
      (match buffer !! index with
       | Some (Some y) => Some y :: out
       | _ => out
       end, buffer', t2)
  end.

Definition shuffle_loops (data : list value) (buffer_size : Z) (t : random.tape)
  : list value * random.tape :=
  let '(out, buffer, t1) :=
    fill_loop data (replicate (Z.to_nat buffer_size) None) t in
  let '(buffer', t2) := random.shuffle buffer t1 in
  (out ++ flush_loop buffer', t2).

End buffered_shuffle_loops.

(** ** The two-phase algorithm, as the design describes it

    Items are of any type [V]; a slot is empty ([None]) or holds one item
    ([Some item]), whatever the item is.  Slot choices and the drain
    permutation are given from outside. *)

Section two_phase.
Context {V : Type}.

(** Fill/swap phase, one incoming item and its slot [k]: a slot that
    holds an item gives it up and takes the new one; an empty slot takes
    the new one and nothing is emitted. *)
Definition swap_in (k : nat) (item : V) (slots : list (option V))
  : list V * list (option V) :=
  match slots !! k with
  | Some (Some held) => ([held], <[k := Some item]> slots)
  | _ => ([], <[k := Some item]> slots)
  end.

Fixpoint fill_phase (choices : list nat) (data : list V) (slots : list (option V))
  : list V * list (option V) :=
  match data, choices with
  | item :: data', k :: choices' =>
      let '(emitted, slots1) := swap_in k item slots in
      let '(out, slots2) := fill_phase choices' data' slots1 in
      (emitted ++ out, slots2)
  | _, _ => ([], slots)
  end.

(** Drain phase: the slots, permuted, every non-empty one emitted. *)
Definition drain_phase (permuted : list (option V)) : list V :=
  omap id permuted.

(** Both phases, from [buffer_size] empty slots. *)
Definition two_phase (choices : list nat)
    (permute : list (option V) → list (option V))
    (data : list V) (buffer_size : nat) : list V :=
  let '(out, slots) := fill_phase choices data (replicate buffer_size None) in
  out ++ drain_phase (permute slots).

(** The slots taken in the order [order] of their positions. *)
Definition in_order (order : list nat) (slots : list (option V))
  : list (option V) :=
  (λ i, default None (slots !! i)) <$> order.

End two_phase.

(** ** Concrete instances used to exercise the statements *)

Definition demo_fs : filesystem := {|
  scandir := λ p,
    if String.eqb p "data"
    then Some [ {| name := "b.gz"; is_file := true |};
                {| name := "notes.txt"; is_file := true |};
                {| name := "a.gz"; is_file := true |};
                {| name := "sub.gz"; is_file := false |} ]
    else None;
  gzip_lines := λ p,
    if String.eqb p "data/a.gz" then inr ["a"; "b"]
    else if String.eqb p "data/b.gz" then inr ["c"]
    else if String.eqb p "data/latin1.gz" then inl UnicodeDecodeError
    else if String.eqb p "data/cut.gz" then inl EOFError
    else inl OSError
|}.

Definition empty_world : world := {| heap := ∅; rng := [] |}.

(** The dataset that [ChunkedDataset("data", shuffle, buffer_size)] builds
    on [demo_fs], and the world it is built in. *)
Definition demo_dataset (shuffle : bool) (buffer_size : Z) : ChunkedDataset (A:=string) :=
  {| chunk_file_paths := 0; shuffle := shuffle;
     buffer_size := buffer_size; transform := None |}.

Definition demo_world (t : random.tape) : world :=
  {| heap := {[ 0 := ["data/a.gz"; "data/b.gz"] ]}; rng := t |}.

(** The same with a path in the list whose file is not UTF-8 text. *)
Definition broken_world (t : random.tape) : world :=
  {| heap := {[ 0 := ["data/a.gz"; "data/latin1.gz"; "data/b.gz"] ]}; rng := t |}.

(** ** Frame invariants used in the proofs *)

(** A shuffle generator whose buffer, once allocated, has a slot. *)
Definition bsg_ready {St A} (s : bsg_state St A) : Prop :=
  match s with
  | BsgStart _ buffer_size => (1 ≤ buffer_size)%Z
  | BsgLoop _ buffer | BsgYielded _ buffer _ _ => 0 < length buffer
  | BsgFlush _ => True
  end.

(** Where a wrapped generator stands, seen from its wrapper. *)
Definition outcome_map {St St'} (wrap : St → St') (o : outcome St) : outcome St' :=
  match o with
  | Finished w => Finished w
  | Raised e w => Raised e w
  | Suspended s w => Suspended (wrap s) w
  end.

(** On [items] the transform stage computes [g]: the truth test returns;
    when it is true the transform returns [g item] on each of them; when
    it is false, or there is no transform, the items go through as they
    are, and [g] leaves each of them as it is. *)
Definition transform_computes {V} (transform : option (callable V))
    (g : V → V) (items : list V) : Prop :=
  match transform with
  | None => Forall (λ item, g item = item) items
  | Some f =>
      match truthy f with
      | inl _ => False
      | inr true => Forall (λ item, call f item = inr (g item)) items
      | inr false => Forall (λ item, g item = item) items
      end
  end.


(** The loop the transform stage is in, once it has started. *)
Definition tg_loop {St V} (transform : option (callable V))
  : St → tg_state St V :=
  match transform with
  | Some f =>
      match truthy f with
      | inr true => λ data, TgMap data f
      | _ => TgPass
      end
  | None => TgPass
  end.

(** The lines of a file that can be read. *)
Definition chunk_lines (fs : filesystem) (path : string)
  : option (list string) :=
  match gzip_lines fs path with
  | inr lines => Some lines
  | inl _ => None
  end.

(** Every path of the list can be opened and decoded, with these lines. *)
Definition readable (fs : filesystem) (paths : list string)
    (chunks : list (list string)) : Prop :=
  Forall2 (λ p lines, gzip_lines fs p = inr lines) paths chunks.

(** The list object at [a] holds [l]. *)
Definition list_at (a : loc) (l : list string) (w : world) : Prop :=
  heap w !! a = Some l.

(** A generator none of whose steps disturbs [P]. *)
Definition step_keeps (P : world → Prop) {St V} (step : stepper St V) : Prop :=
  ∀ s w, P w →
    match step s w with
    | Tau _ w' | Yield _ _ w' | Stop w' | Raise _ w' => P w'
    end.


(** ** Sources that stream

    [streams P step d items ending]: from state [d], in any world where
    [P] holds, the source yields [items] in order without changing the
    world, and then returns ([ending = None]) or raises. *)
Inductive streams {St V} (P : world → Prop) (step : stepper St V)
  : St → list V → option exn → Prop :=
| streams_stop d :
    (∀ w, P w → step d w = Stop w) → streams P step d [] None
| streams_raise d e :
    (∀ w, P w → step d w = Raise e w) → streams P step d [] (Some e)
| streams_tau d d' items ending :
    (∀ w, P w → step d w = Tau d' w) →
    streams P step d' items ending → streams P step d items ending
| streams_yield d a d' items ending :
    (∀ w, P w → step d w = Yield a d' w) →
    streams P step d' items ending → streams P step d (a :: items) ending.

(** How a drained generator ends, given how its source ends. *)
Definition ended {St} (ending : option exn) (w : world) : outcome St :=
  match ending with
  | None => Finished w
  | Some e => Raised e w
  end.

(** ** Accounts of a shuffle generator reading a list *)



(** The buffer has [n] slots (in the drain, at most [n] are left to visit). *)
Definition bsg_sized {St A} (n : nat) (s : bsg_state St A) : Prop :=
  match s with
  | BsgStart _ buffer_size => Z.to_nat buffer_size = n
  | BsgLoop _ buffer | BsgYielded _ buffer _ _ => length buffer = n
  | BsgFlush rest => length rest ≤ n
  end.

(** The outer loop of [chunked_data_generator] on its own: the files are
    opened in list order until one cannot be read; the loop ends with the
    exception of that file. *)
Fixpoint read_chunks (fs : filesystem) (paths : list string)
  : list (list string) * option exn :=
  match paths with
  | [] => ([], None)
  | p :: paths' =>
      match gzip_lines fs p with
      | inl e => ([], Some e)
      | inr lines =>
          let '(chunks, ending) := read_chunks fs paths' in
          (lines :: chunks, ending)
      end
  end.

(** What the generator yields once its source has ended: the drain after
    a normal end, nothing more after an exception. *)
Definition after_source {A} (ending : option exn) (buffer : list (option A))
    (t : random.tape) : list (option A) * random.tape :=
  match ending with
  | None => (flush_loop (random.shuffle buffer t).1, (random.shuffle buffer t).2)
  | Some _ => ([], t)
  end.


(** [demo_fs] with the directory listed in another order. *)
Definition relisted_fs : filesystem := {|
  scandir := λ p, reverse <$> scandir demo_fs p;
  gzip_lines := gzip_lines demo_fs
|}.

(** * Properties *)

(** ** Draining a generator *)

Section run_facts.
Context {St A : Type} (step : stepper St A).

Lemma produces_stop s w w' :
  step s w = Stop w' → produces step s w [] (Finished w').
Proof.
  intros Hs. exists 1. intros [|m] ?; [lia|]. simpl. by rewrite Hs.
Qed.

Lemma produces_raise s w e w' :
  step s w = Raise e w' → produces step s w [] (Raised e w').
Proof.
  intros Hs. exists 1. intros [|m] ?; [lia|]. simpl. by rewrite Hs.
Qed.

Lemma produces_tau s w s' w' out o :
  step s w = Tau s' w' → produces step s' w' out o → produces step s w out o.
Proof.
  intros Hs [n Hn]. exists (S n). intros [|m] ?; [lia|].
  simpl. rewrite Hs. apply Hn. lia.
Qed.

Lemma produces_yield s w a s' w' out o :
  step s w = Yield a s' w' →
  produces step s' w' out o → produces step s w (a :: out) o.
Proof.
  intros Hs [n Hn]. exists (S n). intros [|m] ?; [lia|].
  simpl. rewrite Hs, Hn by lia. done.
Qed.

Lemma produces_det s w out1 o1 out2 o2 :
  produces step s w out1 o1 → produces step s w out2 o2 →
  out1 = out2 ∧ o1 = o2.
Proof.
  intros [n1 H1] [n2 H2].
  pose proof (H1 (n1 `max` n2) ltac:(lia)) as E1.
  pose proof (H2 (n1 `max` n2) ltac:(lia)) as E2.
  rewrite E1 in E2. by simplify_eq.
Qed.

(** A property of the world that every step keeps is kept by any run,
    however far it gets. *)
Lemma run_invariant (I : St → Prop) (P : world → Prop) :
  (∀ s w, I s → P w →
     match step s w with
     | Tau s' w' | Yield _ s' w' => I s' ∧ P w'
     | Stop w' | Raise _ w' => P w'
     end) →
  ∀ fuel s w, I s → P w → P (world_of (run step fuel s w).2).
Proof.
  intros Hstep fuel. induction fuel as [|n IH]; intros s w Hs Hw; [done|].
  simpl. specialize (Hstep s w Hs Hw).
  destruct (step s w) as [s' w'|a s' w'|w'|e w']; simpl; try done.
  - destruct Hstep. by apply IH.
  - destruct Hstep as [Hs' Hw']. specialize (IH s' w' Hs' Hw').
    by destruct (run step n s' w').
Qed.

(** Likewise for what a run can end in. *)
Lemma run_never_raises (I : St → Prop) (e : exn) :
  (∀ s w, I s →
     match step s w with
     | Tau s' w' | Yield _ s' w' => I s'
     | Stop _ => True
     | Raise e' _ => e' ≠ e
     end) →
  ∀ fuel s w w', I s → (run step fuel s w).2 ≠ Raised e w'.
Proof.
  intros Hstep fuel. induction fuel as [|n IH]; intros s w w0 Hs; [done|].
  simpl. specialize (Hstep s w Hs).
  destruct (step s w) as [s' w'|a s' w'|w'|e' w']; simpl; try done.
  - by apply IH.
  - specialize (IH s' w' w0 Hstep). by destruct (run step n s' w').
  - congruence.
Qed.


(** Where a run is suspended. *)
Lemma run_suspended_invariant (I : St → Prop) :
  (∀ s w, I s →
     match step s w with
     | Tau s' _ | Yield _ s' _ => I s'
     | Stop _ | Raise _ _ => True
     end) →
  ∀ fuel s w s' w',
    I s → (run step fuel s w).2 = Suspended s' w' → I s'.
Proof.
  intros Hstep fuel. induction fuel as [|n IH]; intros s w s' w' Hs Hrun.
  { simpl in Hrun. by simplify_eq. }
  simpl in Hrun. specialize (Hstep s w Hs).
  destruct (step s w) as [s1 w1|a s1 w1|w1|e w1]; simpl in Hrun; try done.
  - exact (IH s1 w1 s' w' Hstep Hrun).
  - destruct (run step n s1 w1) as [out o] eqn:Hn. simpl in Hrun. subst o.
    apply (IH s1 w1 s' w' Hstep). by rewrite Hn.
Qed.


End run_facts.

(** ** The random module *)

Lemma randbelow_lt n t : 0 < n → (random.randbelow n t).1 < n.
Proof.
  intros Hn. destruct t as [|d t]; simpl; [done|].
  apply Nat.mod_upper_bound. lia.
Qed.

(** Any in-range answer can be put on the tape. *)
Lemma randbelow_exact k n t : k < n → random.randbelow n (k :: t) = (k, t).
Proof. intros Hk. simpl. by rewrite Nat.mod_small. Qed.

Lemma randrange_0 n t :
  0 < n → random.randrange 0 n t = inr (random.randbelow n t).
Proof.
  intros Hn. unfold random.randrange. rewrite decide_True by done.
  rewrite Nat.sub_0_r. by destruct (random.randbelow n t).
Qed.

Lemma swap_Permutation {A} i j (x : list A) : random.swap i j x ≡ₚ x.
Proof.
  unfold random.swap.
  destruct (x !! i) as [a|] eqn:Hi; [|done].
  destruct (x !! j) as [b|] eqn:Hj; [|done].
  by apply Permutation_insert_swap.
Qed.

Lemma shuffle_from_Permutation {A} i (x : list A) t :
  (random.shuffle_from i x t).1 ≡ₚ x.
Proof.
  revert x t. induction i as [|i IH]; intros x t; [done|].
  simpl. destruct (random.randbelow (S (S i)) t) as [j t'].
  rewrite IH. apply swap_Permutation.
Qed.

Lemma shuffle_Permutation {A} (x : list A) t : (random.shuffle x t).1 ≡ₚ x.
Proof. apply shuffle_from_Permutation. Qed.

(** One slot cannot be reordered, and no draw is spent on it. *)
Lemma shuffle_singleton {A} (a : A) t : random.shuffle [a] t = ([a], t).
Proof. done. Qed.

(** Every arrangement of the list is the outcome of some draws: the
    shuffle can produce any permutation. *)
Lemma shuffle_from_reaches {A} i (x y : list A) :
  i < length x →
  take (S i) y ≡ₚ take (S i) x →
  drop (S i) y = drop (S i) x →
  ∃ t, random.in_range t (random.shuffle_from_bounds i)
       ∧ ∀ t0, random.shuffle_from i x (t ++ t0) = (y, t0).
Proof.
  revert x. induction i as [|i IH]; intros x Hi Htake Hdrop.
  - exists []. split; [constructor|]. intros t0. simpl. f_equal.
    destruct x as [|a x]; [simpl in Hi; lia|].
    destruct y as [|b y]; [by apply Permutation_nil_cons in Htake|].
    simpl in *. rewrite !take_0 in Htake.
    apply Permutation_singleton_inj in Htake. by simplify_eq.
  - assert (length y = length x) as Hlen.
    { apply Permutation_length in Htake. rewrite !length_take in Htake.
      apply (f_equal length) in Hdrop. rewrite !length_drop in Hdrop. lia. }
    destruct (lookup_lt_is_Some_2 y (S i)) as [b Hb]; [lia|].
    destruct (lookup_lt_is_Some_2 x (S i)) as [a Ha]; [lia|].
    assert (∃ j, j < S (S i) ∧ x !! j = Some b) as (j & Hj & Hxj).
    { assert (b ∈ take (S (S i)) x) as Hin.
      { rewrite <-Htake. apply list_elem_of_lookup. exists (S i).
        by rewrite lookup_take_lt by lia. }
      apply list_elem_of_lookup in Hin as [j Hin].
      apply lookup_take_Some in Hin as [? ?]. by exists j. }
    set (x' := <[S i := b]> (<[j := a]> x)).
    assert (random.swap (S i) j x = x') as Hswap.
    { unfold random.swap. by rewrite Ha, Hxj. }
    assert (x' !! S i = Some b) as Hx'.
    { apply list_lookup_insert_eq. rewrite length_insert. lia. }
    destruct (IH x') as (t & Hrange & Ht).
    + unfold x'. rewrite !length_insert. lia.
    + apply (inj (.++ [b])).
      rewrite <-(take_S_r y (S i) b Hb), <-(take_S_r x' (S i) b Hx'), Htake.
      unfold x'. rewrite !take_insert_lt by lia.
      symmetry. apply Permutation_insert_swap; by rewrite lookup_take_lt by lia.
    + rewrite (drop_S y b (S i) Hb), (drop_S x' b (S i) Hx'), Hdrop.
      unfold x'. by rewrite !drop_insert_lt by lia.
    + exists (j :: t). split; [by constructor|]. intros t0.
      change (random.shuffle_from (S i) x ((j :: t) ++ t0))
        with (let '(j', t') := random.randbelow (S (S i)) (j :: t ++ t0) in
              random.shuffle_from i (random.swap (S i) j' x) t').
      rewrite randbelow_exact by done. by rewrite Hswap.
Qed.

Lemma shuffle_reaches {A} (x y : list A) :
  x ≡ₚ y →
  ∃ t, random.in_range t (random.shuffle_bounds (length x))
       ∧ ∀ t0, random.shuffle x (t ++ t0) = (y, t0).
Proof.
  intros Hperm. unfold random.shuffle, random.shuffle_bounds.
  destruct x as [|a x].
  { apply Permutation_nil_l in Hperm as <-. exists []. by split; [constructor|]. }
  pose proof (Permutation_length Hperm) as Hlen. simpl in Hlen.
  apply shuffle_from_reaches.
  - simpl. lia.
  - rewrite !take_ge by (simpl in *; lia). done.
  - rewrite !drop_ge by (simpl in *; lia). done.
Qed.

(** The shuffle moves positions; it does not look at what is there. *)
Lemma swap_fmap {C D} (h : C → D) i j (x : list C) :
  h <$> random.swap i j x = random.swap i j (h <$> x).
Proof.
  unfold random.swap. rewrite !list_lookup_fmap.
  destruct (x !! i) as [a|]; simpl; [|done].
  destruct (x !! j) as [b|]; simpl; [|done].
  by rewrite !list_fmap_insert.
Qed.

Lemma shuffle_from_fmap {C D} (h : C → D) i (x : list C) t :
  random.shuffle_from i (h <$> x) t
  = (h <$> (random.shuffle_from i x t).1, (random.shuffle_from i x t).2).
Proof.
  revert x t. induction i as [|i IH]; intros x t; [done|].
  simpl. destruct (random.randbelow (S (S i)) t) as [j t'].
  by rewrite <-swap_fmap, IH.
Qed.

Lemma shuffle_fmap {C D} (h : C → D) (x : list C) t :
  random.shuffle (h <$> x) t
  = (h <$> (random.shuffle x t).1, (random.shuffle x t).2).
Proof. unfold random.shuffle. by rewrite length_fmap, shuffle_from_fmap. Qed.

Lemma fmap_lookup_seq {B} (d : B) (x : list B) :
  (λ i, default d (x !! i)) <$> seq 0 (length x) = x.
Proof.
  apply list_eq. intros i. rewrite list_lookup_fmap.
  destruct (decide (i < length x)) as [Hi|Hi].
  - rewrite lookup_seq_lt by done. simpl.
    by destruct (lookup_lt_is_Some_2 x i Hi) as [v ->].
  - rewrite lookup_seq_ge by lia. by rewrite lookup_ge_None_2 by lia.
Qed.

Lemma shuffle_by_position {B} (d : B) (x : list B) t :
  random.shuffle x t
  = ((λ i, default d (x !! i)) <$> (random.shuffle (seq 0 (length x)) t).1,
     (random.shuffle (seq 0 (length x)) t).2).
Proof.
  rewrite <-(fmap_lookup_seq d x) at 1.
  by rewrite shuffle_fmap.
Qed.

(** Iterations [i], [i-1], ..., 1 leave the positions above [i] alone,
    and put at position [i] what the first draw points at. *)
Lemma swap_lookup_above {A} i j k (x : list A) :
  i < k → j < k → random.swap i j x !! k = x !! k.
Proof.
  intros Hi Hj. unfold random.swap.
  destruct (x !! i) as [a|]; [|done]. destruct (x !! j) as [b|]; [|done].
  by rewrite !list_lookup_insert_ne by lia.
Qed.

Lemma shuffle_from_above {A} i (x : list A) t k :
  i < k → (random.shuffle_from i x t).1 !! k = x !! k.
Proof.
  revert x t. induction i as [|i IH]; intros x t Hk; [done|].
  simpl. pose proof (randbelow_lt (S (S i)) t ltac:(lia)) as Hj.
  destruct (random.randbelow (S (S i)) t) as [j t']. simpl in Hj.
  rewrite IH by lia. apply swap_lookup_above; lia.
Qed.

Lemma swap_lookup_top {A} i j (x : list A) :
  i < length x → j < length x → random.swap i j x !! i = x !! j.
Proof.
  intros Hi Hj. unfold random.swap.
  destruct (lookup_lt_is_Some_2 x i Hi) as [a Ha].
  destruct (lookup_lt_is_Some_2 x j Hj) as [b Hb].
  rewrite Ha, Hb. rewrite list_lookup_insert_eq; [done|].
  by rewrite length_insert.
Qed.

(** Different draws give different arrangements of distinct items. *)
Lemma shuffle_from_inj {A} i (x : list A) t t' :
  NoDup x → i < length x →
  random.in_range t (random.shuffle_from_bounds i) →
  random.in_range t' (random.shuffle_from_bounds i) →
  (random.shuffle_from i x t).1 = (random.shuffle_from i x t').1 →
  t = t'.
Proof.
  revert x t t'. induction i as [|i IH]; intros x t t' Hnd Hi Ht Ht' Heq.
  { apply Forall2_nil_inv_r in Ht. apply Forall2_nil_inv_r in Ht'. congruence. }
  simpl in Ht, Ht'.
  apply Forall2_cons_inv_r in Ht as (d & ts & Hd & Hts & ->).
  apply Forall2_cons_inv_r in Ht' as (d' & ts' & Hd' & Hts' & ->).
  change (random.shuffle_from (S i) x (d :: ts))
    with (let '(j, t1) := random.randbelow (S (S i)) (d :: ts) in
          random.shuffle_from i (random.swap (S i) j x) t1) in Heq.
  change (random.shuffle_from (S i) x (d' :: ts'))
    with (let '(j, t1) := random.randbelow (S (S i)) (d' :: ts') in
          random.shuffle_from i (random.swap (S i) j x) t1) in Heq.
  rewrite !randbelow_exact in Heq by done.
  assert (d = d') as <-.
  { destruct (lookup_lt_is_Some_2 x d ltac:(lia)) as [v Hv].
    apply (NoDup_lookup x d d' v); [done..|].
    apply (f_equal (λ l, l !! S i)) in Heq.
    rewrite !shuffle_from_above in Heq by lia.
    rewrite !swap_lookup_top in Heq by lia.
    by rewrite <-Heq. }
  f_equal. apply (IH (random.swap (S i) d x)); [| |done..].
  - by rewrite swap_Permutation.
  - rewrite (Permutation_length (swap_Permutation (S i) d x)). lia.
Qed.

(** Every order of [n] positions is the outcome of exactly one vector of
    draws: with each draw uniform on its range, every order is as likely
    as every other. *)
Lemma shuffle_orders n order :
  order ≡ₚ seq 0 n →
  ∃ draws,
    random.in_range draws (random.shuffle_bounds n)
    ∧ (∀ t, random.shuffle (seq 0 n) (draws ++ t) = (order, t))
    ∧ ∀ draws',
        random.in_range draws' (random.shuffle_bounds n) →
        (random.shuffle (seq 0 n) draws').1 = order → draws' = draws.
Proof.
  intros Hperm.
  destruct (shuffle_reaches (seq 0 n) order (symmetry Hperm))
    as (draws & Hrange & Hsh).
  rewrite length_seq in Hrange.
  exists draws. split_and!; [done..|].
  intros draws' Hrange' Heq.
  pose proof (Hsh []) as Hd. rewrite app_nil_r in Hd.
  destruct n as [|n].
  { apply Forall2_nil_inv_r in Hrange. apply Forall2_nil_inv_r in Hrange'.
    congruence. }
  unfold random.shuffle in Heq, Hd. rewrite length_seq in Heq, Hd.
  unfold random.shuffle_bounds in Hrange, Hrange'.
  apply (shuffle_from_inj (S n - 1) (seq 0 (S n))); [apply NoDup_seq| |done..|].
  - rewrite length_seq. lia.
  - by rewrite Heq, Hd.
Qed.

Lemma slot_draws_exact n choices t :
  Forall (λ k, k < n) choices →
  random.slot_draws n (length choices) (choices ++ t) = (choices, t).
Proof.
  induction 1 as [|k choices Hk _ IH]; [done|].
  simpl. rewrite Nat.mod_small by done. by rewrite IH.
Qed.

Lemma slot_draws_lt n k t :
  0 < n →
  length (random.slot_draws n k t).1 = k
  ∧ Forall (λ i, i < n) (random.slot_draws n k t).1.
Proof.
  intros Hn. revert t. induction k as [|k IH]; intros t; [by split|].
  simpl. pose proof (randbelow_lt n t Hn) as Hlt.
  destruct (random.randbelow n t) as [index t1]. simpl in Hlt.
  destruct (IH t1) as [Hlen Hall].
  destruct (random.slot_draws n k t1) as [indices t2]. simpl in *.
  split; [by rewrite Hlen|by constructor].
Qed.

(** ** Buffer updates and what the flush loop sees *)

Section flush_facts.
Context {A : Type}.
Implicit Types (buffer data : list (option A)) (item : option A).

Lemma insert_Permutation buffer i held item :
  buffer !! i = Some held → <[i := item]> buffer ≡ₚ item :: delete i buffer.
Proof.
  revert i. induction buffer as [|v buffer IH]; intros [|i] Hi; simplify_eq/=.
  - done.
  - by rewrite (IH i), Permutation_swap.
Qed.

Lemma flush_loop_cons item buffer :
  flush_loop (item :: buffer) = flush_loop [item] ++ flush_loop buffer.
Proof. unfold flush_loop. by rewrite <-(filter_app _ [item] buffer). Qed.

Lemma flush_loop_Permutation buffer1 buffer2 :
  buffer1 ≡ₚ buffer2 → flush_loop buffer1 ≡ₚ flush_loop buffer2.
Proof. intros H. unfold flush_loop. by rewrite H. Qed.

(** Overwriting a slot trades what it held for the new item. *)
Lemma flush_loop_insert buffer i held item :
  buffer !! i = Some held →
  flush_loop [held] ++ flush_loop (<[i := item]> buffer)
    ≡ₚ flush_loop buffer ++ flush_loop [item].
Proof.
  intros Hi.
  rewrite (flush_loop_Permutation _ _ (insert_Permutation _ _ _ item Hi)).
  rewrite (flush_loop_Permutation _ _ (delete_Permutation _ _ _ Hi)).
  rewrite !(flush_loop_cons _ (delete i buffer)).
  rewrite (comm (++) (flush_loop [held] ++ _)), !(assoc (++)).
  f_equiv. apply (comm (++)).
Qed.

Lemma flush_loop_replicate_None n : flush_loop (replicate n (@None A)) = [].
Proof.
  induction n as [|n IH]; [done|]. simpl. rewrite flush_loop_cons, IH.
  unfold flush_loop. rewrite filter_cons_False; [done|]. by intros [? ?].
Qed.

Lemma flush_loop_Some (xs : list A) : flush_loop (Some <$> xs) = Some <$> xs.
Proof.
  induction xs as [|x xs IH]; [done|]. rewrite fmap_cons, flush_loop_cons, IH.
  unfold flush_loop. by rewrite filter_cons_True by eauto.
Qed.

Lemma flush_loop_not_None buffer : None ∉ flush_loop buffer.
Proof.
  unfold flush_loop. rewrite list_elem_of_filter. by intros [[? ?] _].
Qed.

(** The first loop neither loses nor invents an item: what it yields and
    what it leaves in the buffer is what was in the buffer and what came
    in, None apart. *)
Lemma fill_loop_Permutation data buffer t out buffer' t' :
  0 < length buffer →
  fill_loop data buffer t = (out, buffer', t') →
  length buffer' = length buffer ∧
  out ++ flush_loop buffer' ≡ₚ flush_loop buffer ++ flush_loop data.
Proof.
  revert buffer t out buffer' t'.
  induction data as [|item data IH]; intros buffer t out buffer' t' Hlen Hfill.
  { simplify_eq/=. split; [done|]. unfold flush_loop at 3.
    by rewrite filter_nil, app_nil_r. }
  simpl in Hfill.
  pose proof (randbelow_lt (length buffer) t Hlen) as Hlt.
  destruct (random.randbelow (length buffer) t) as [index t1]. simpl in Hlt.
  destruct (fill_loop data (<[index := item]> buffer) t1)
    as [[out1 buffer1] t2] eqn:Hrec.
  apply IH in Hrec as [Hlen1 Hperm]; [|by rewrite length_insert].
  rewrite length_insert in Hlen1.
  destruct (lookup_lt_is_Some_2 buffer index Hlt) as [held Hheld].
  rewrite Hheld in Hfill. rewrite (flush_loop_cons item data).
  assert (flush_loop [held] ++ out1 = out) as <-.
  { destruct held; by simplify_eq/=. }
  assert (buffer1 = buffer') as -> by (destruct held; by simplify_eq).
  split; [done|].
  rewrite <-(assoc (++)), Hperm, !(assoc (++)).
  f_equiv. by apply flush_loop_insert.
Qed.

Lemma fill_loop_not_None data buffer t : None ∉ (fill_loop data buffer t).1.1.
Proof.
  revert buffer t. induction data as [|item data IH]; intros buffer t; simpl.
  { apply not_elem_of_nil. }
  destruct (random.randbelow (length buffer) t) as [index t1].
  specialize (IH (<[index := item]> buffer) t1).
  destruct (fill_loop data (<[index := item]> buffer) t1) as [[out1 b1] t2].
  simpl in *. destruct (buffer !! index) as [[y|]|]; try done.
  rewrite not_elem_of_cons. done.
Qed.

End flush_facts.

(** ** buffered_shuffle_generator over a list *)

Section bsg_list.
Context {A : Type}.
Implicit Types (buffer data : list (option A)) (item : option A).

Lemma flush_produces buffer w :
  produces bsg_list_step (BsgFlush buffer) w (flush_loop buffer) (Finished w).
Proof.
  induction buffer as [|[y|] buffer IH].
  - by apply produces_stop.
  - unfold flush_loop. rewrite filter_cons_True by eauto.
    by eapply produces_yield.
  - unfold flush_loop. rewrite filter_cons_False by (by intros [? ?]).
    by eapply produces_tau.
Qed.

Lemma loop_produces data buffer w out buffer1 t1 buffer2 t2 :
  0 < length buffer →
  fill_loop data buffer (rng w) = (out, buffer1, t1) →
  random.shuffle buffer1 t1 = (buffer2, t2) →
  produces bsg_list_step (BsgLoop data buffer) w
    (out ++ flush_loop buffer2) (Finished (set_rng t2 w)).
Proof.
  revert buffer w out buffer1 t1.
  induction data as [|item data IH]; intros buffer w out buffer1 t1 Hlen Hfill Hsh.
  { simplify_eq/=. eapply produces_tau; [simpl; by rewrite Hsh|].
    apply flush_produces. }
  simpl in Hfill.
  pose proof (randbelow_lt (length buffer) (rng w) Hlen) as Hlt.
  pose proof (randrange_0 (length buffer) (rng w) Hlen) as Hrr.
  destruct (random.randbelow (length buffer) (rng w)) as [index t'].
  simpl in Hlt.
  destruct (fill_loop data (<[index := item]> buffer) t')
    as [[out' buffer'] t''] eqn:Hrec.
  destruct (lookup_lt_is_Some_2 buffer index Hlt) as [held Hheld].
  rewrite Hheld in Hfill.
  assert (produces bsg_list_step (BsgLoop data (<[index := item]> buffer))
            (set_rng t' w) (out' ++ flush_loop buffer2)
            (Finished (set_rng t2 w))) as Hnext.
  { apply (IH (<[index := item]> buffer) (set_rng t' w) out' buffer1 t1).
    - by rewrite length_insert.
    - destruct held; by simplify_eq/=.
    - done. }
  destruct held as [y|]; simplify_eq/=.
  - eapply produces_yield; [simpl; by rewrite Hrr, Hheld|].
    by eapply produces_tau.
  - eapply produces_tau; [simpl; by rewrite Hrr, Hheld|]. done.
Qed.

Lemma bsg_produces data buffer_size w out t :
  (1 ≤ buffer_size)%Z →
  shuffle_loops data buffer_size (rng w) = (out, t) →
  produces bsg_list_step (buffered_shuffle_generator data buffer_size) w
    out (Finished (set_rng t w)).
Proof.
  intros Hbs Hloops. unfold shuffle_loops in Hloops.
  destruct (fill_loop data _ (rng w)) as [[out1 buffer1] t1] eqn:Hfill.
  destruct (random.shuffle buffer1 t1) as [buffer2 t2] eqn:Hsh.
  simplify_eq. eapply produces_tau.
  { simpl. rewrite decide_False by lia. done. }
  eapply loop_produces; [|done..]. rewrite length_replicate. lia.
Qed.

(** With a buffer to draw into, no step over a list raises anything. *)
Lemma bsg_ready_step (s : bsg_state (list (option A)) A) w :
  bsg_ready s →
  match bsg_list_step s w with
  | Tau s' _ | Yield _ s' _ => bsg_ready s'
  | Stop _ => True
  | Raise _ _ => False
  end.
Proof.
  destruct s as [data bs|data buffer|data buffer index item|rest]; simpl.
  - intros Hbs. rewrite decide_False by lia. simpl. rewrite length_replicate. lia.
  - intros Hlen. destruct data as [|item data]; simpl.
    { by destruct (random.shuffle buffer (rng w)). }
    rewrite (randrange_0 _ _ Hlen).
    pose proof (randbelow_lt (length buffer) (rng w) Hlen) as Hlt.
    destruct (random.randbelow (length buffer) (rng w)) as [index t'].
    destruct (lookup_lt_is_Some_2 buffer index Hlt) as [held ->].
    destruct held; simpl; [done|]. by rewrite length_insert.
  - intros Hlen. by rewrite length_insert.
  - intros _. by destruct rest as [|[y|] rest].
Qed.

End bsg_list.

(** Whatever the source, the shuffle generator yields only values that
    passed an [is not None] test. *)
Lemma run_yields_Forall {St V} (step : stepper St V) (P : V → Prop) :
  (∀ s w a s' w', step s w = Yield a s' w' → P a) →
  ∀ fuel s w, Forall P (run step fuel s w).1.
Proof.
  intros Hstep fuel. induction fuel as [|n IH]; intros s w; simpl; [done|].
  destruct (step s w) as [s' w'|a s' w'|w'|e w'] eqn:Hs; simpl; try done.
  specialize (IH s' w'). destruct (run step n s' w') as [out o].
  simpl in *. constructor; [by eapply Hstep|done].
Qed.

Lemma bsg_step_yields_Some {St A} (data_step : stepper St (option A)) s w a s' w' :
  bsg_step data_step s w = Yield a s' w' → is_Some a.
Proof.
  destruct s as [data bs|data buffer|data buffer index item|rest]; simpl.
  - by destruct (decide _).
  - destruct (data_step data w) as [d1 w1|item d1 w1|w1|e w1]; try done.
    + destruct (random.randrange 0 (length buffer) (rng w1)) as [e|[index t1]];
        [done|].
      destruct (buffer !! index) as [[y|]|]; try done.
      intros; simplify_eq; eauto.
    + by destruct (random.shuffle buffer (rng w1)).
  - done.
  - destruct rest as [|[y|] rest]; try done. intros; simplify_eq; eauto.
Qed.

Section one_slot.
Context {A : Type}.
Implicit Types (data : list (option A)) (held item : option A).

Lemma randbelow_1 t : (random.randbelow 1 t).1 = 0.
Proof. pose proof (randbelow_lt 1 t). lia. Qed.

(** One slot: the first loop passes on what it held before each item. *)
Lemma fill_loop_one_slot data held t :
  ∃ last t', fill_loop data [held] t = (flush_loop (removelast (held :: data)), [last], t')
             ∧ flush_loop (removelast (held :: data)) ++ flush_loop [last]
               = flush_loop (held :: data).
Proof.
  revert held t. induction data as [|item data IH]; intros held t.
  { exists held, t. split; [done|]. by rewrite app_nil_l. }
  cbn [fill_loop length]. pose proof (randbelow_1 t) as H0.
  destruct (random.randbelow 1 t) as [index t1]. simpl in H0. subst index.
  change (<[0 := item]> [held]) with [item].
  destruct (IH item t1) as (last & t' & -> & Hout).
  exists last, t'. split.
  - change (removelast (held :: item :: data))
      with (held :: removelast (item :: data)).
    rewrite (flush_loop_cons held). by destruct held.
  - change (removelast (held :: item :: data))
      with (held :: removelast (item :: data)).
    rewrite (flush_loop_cons held (removelast _)), (flush_loop_cons held (item :: _)).
    by rewrite <-(assoc (++)), Hout.
Qed.

Lemma one_slot_produces data w :
  ∃ t, produces bsg_list_step (buffered_shuffle_generator data 1) w
         (flush_loop data) (Finished (set_rng t w)).
Proof.
  destruct (fill_loop_one_slot data None (rng w)) as (last & t' & Hfill & Hout).
  exists t'. apply bsg_produces; [done|].
  unfold shuffle_loops. change (replicate (Z.to_nat 1) None) with [@None A].
  rewrite Hfill, shuffle_singleton, Hout.
  rewrite flush_loop_cons. done.
Qed.

(** Without None in the input: output is input, one position late. *)
Lemma fill_loop_delay (xs : list A) (x : A) held t :
  ∃ t', fill_loop (Some <$> xs ++ [x]) [held] t
        = (flush_loop (held :: (Some <$> xs)), [Some x], t').
Proof.
  revert held t. induction xs as [|y xs IH]; intros held t.
  - cbn [fmap list_fmap app fill_loop length].
    pose proof (randbelow_1 t) as H0.
    destruct (random.randbelow 1 t) as [index t1]. simpl in H0. subst index.
    exists t1. by destruct held.
  - cbn [fmap list_fmap app fill_loop length].
    pose proof (randbelow_1 t) as H0.
    destruct (random.randbelow 1 t) as [index t1]. simpl in H0. subst index.
    destruct (IH (Some y) t1) as [t' Hrec].
    change (<[0 := Some y]> [held]) with [Some y]. rewrite Hrec.
    exists t'. rewrite (flush_loop_cons held). by destruct held.
Qed.

End one_slot.

(** ** What the shuffle generator yields *)

Section shuffle_output.
Context {A : Type}.
Implicit Types (data : list (option A)).

Lemma shuffle_loops_Permutation data buffer_size t out t' :
  (1 ≤ buffer_size)%Z →
  shuffle_loops data buffer_size t = (out, t') →
  out ≡ₚ flush_loop data.
Proof.
  intros Hbs Hloops. unfold shuffle_loops in Hloops.
  destruct (fill_loop data _ t) as [[out1 buffer1] t1] eqn:Hfill.
  pose proof (shuffle_Permutation buffer1 t1) as Hsh.
  destruct (random.shuffle buffer1 t1) as [buffer2 t2]. simplify_eq/=.
  apply fill_loop_Permutation in Hfill as [_ Hperm];
    [|rewrite length_replicate; lia].
  rewrite (flush_loop_Permutation _ _ Hsh), Hperm.
  by rewrite flush_loop_replicate_None.
Qed.

Lemma shuffle_drains data buffer_size w :
  (1 ≤ buffer_size)%Z →
  ∃ out t,
    produces bsg_list_step (buffered_shuffle_generator data buffer_size) w
      out (Finished (set_rng t w))
    ∧ out ≡ₚ flush_loop data.
Proof.
  intros Hbs.
  destruct (shuffle_loops data buffer_size (rng w)) as [out t] eqn:Hloops.
  exists out, t. split; [by apply bsg_produces|].
  by eapply shuffle_loops_Permutation.
Qed.

End shuffle_output.

(** C1 (amended): for any finite input sequence that contains no None
    item and any buffer_size >= 1, the generator runs to completion and the
    sequence it yields is a permutation of the input: the same multiset of
    items, and so the same length. *)
Theorem shuffle_keeps_items {A} (xs : list A) (buffer_size : Z) (w : world) :
  (1 ≤ buffer_size)%Z →
  ∃ out t,
    produces bsg_list_step
      (buffered_shuffle_generator (Some <$> xs) buffer_size) w
      out (Finished (set_rng t w))
    ∧ out ≡ₚ Some <$> xs
    ∧ length out = length xs.
Proof.
  intros Hbs.
  destruct (shuffle_drains (Some <$> xs) buffer_size w Hbs) as (out & t & Hp & Hperm).
  rewrite flush_loop_Some in Hperm.
  exists out, t. split_and!; [done..|].
  by rewrite Hperm, length_fmap.
Qed.

Lemma shuffle_keeps_items_witness :
  (1 ≤ 2)%Z ∧
  ∃ out t,
    produces bsg_list_step
      (buffered_shuffle_generator (Some <$> [10; 20; 30]) 2)
      {| heap := ∅; rng := [1; 1; 0] |}
      out (Finished (set_rng t {| heap := ∅; rng := [1; 1; 0] |}))
    ∧ out ≡ₚ Some <$> [10; 20; 30]
    ∧ length out = length [10; 20; 30].
Proof.
  split; [lia|].
  apply (shuffle_keeps_items [10; 20; 30] 2 {| heap := ∅; rng := [1; 1; 0] |}).
  lia.
Defined.

(** C1 as stated fails on an input that carries None: the item is lost,
    the output is shorter than the input. *)
Lemma shuffle_loses_None :
  produces bsg_list_step
    (buffered_shuffle_generator [None; Some 7] 1) empty_world
    [Some 7] (Finished empty_world)
  ∧ ∀ out o,
      produces bsg_list_step
        (buffered_shuffle_generator [None; Some 7] 1) empty_world out o →
      ¬ out ≡ₚ [None; Some 7] ∧ length out ≠ length [None; Some 7].
Proof.
  assert (produces bsg_list_step
            (buffered_shuffle_generator [None; Some 7] 1) empty_world
            [Some 7] (Finished empty_world)) as Hp.
  { by apply (bsg_produces [None; Some 7] 1 empty_world [Some 7] []). }
  split; [done|]. intros out o Ho.
  destruct (produces_det _ _ _ _ _ _ _ Hp Ho) as [<- _].
  split; [|done]. intros Hperm. by apply Permutation_length in Hperm.
Qed.

(** C9: at any point of any run the generator has yielded no None; and
    for buffer_size >= 1 it runs to completion having yielded exactly the
    items of the input that are not None, as a multiset.  A None that
    comes in takes a slot like any item, evicting what the slot held, and
    is then indistinguishable from an empty slot. *)
Theorem shuffle_drops_None {A} (data : list (option A)) (buffer_size : Z) (w : world) :
  (∀ fuel,
     None ∉ (run bsg_list_step fuel
               (buffered_shuffle_generator data buffer_size) w).1)
  ∧ ((1 ≤ buffer_size)%Z →
     ∃ out t,
       produces bsg_list_step (buffered_shuffle_generator data buffer_size) w
         out (Finished (set_rng t w))
       ∧ out ≡ₚ filter is_Some data)
  ∧ (∀ (held : A) rest,
       bsg_list_step (BsgLoop (None :: rest) [Some held]) w
       = Yield (Some held) (BsgYielded rest [Some held] 0 None)
           (set_rng (tail (rng w)) w)
       ∧ bsg_list_step (BsgYielded rest [Some held] 0 None) w
         = Tau (BsgLoop rest [None]) w).
Proof.
  split_and!.
  - intros fuel Hin.
    pose proof (run_yields_Forall bsg_list_step is_Some
                  (bsg_step_yields_Some list_step) fuel
                  (buffered_shuffle_generator data buffer_size) w) as Hall.
    rewrite Forall_forall in Hall. by destruct (Hall None Hin).
  - apply shuffle_drains.
  - intros held rest. split; [|done]. simpl.
    by destruct (rng w) as [|d t].
Qed.

Lemma shuffle_drops_None_witness :
  (1 ≤ 3)%Z ∧
  ∃ out t,
    produces bsg_list_step
      (buffered_shuffle_generator [Some 1; None; Some 2] 3) empty_world
      out (Finished (set_rng t empty_world))
    ∧ out ≡ₚ filter is_Some [Some 1; None; Some 2].
Proof.
  split; [lia|].
  apply (shuffle_drops_None [Some 1; None; Some 2] 3 empty_world). lia.
Defined.

(** C3: with buffer_size <= 0 the first step of the generator raises
    ValueError, nothing having been yielded; with buffer_size >= 1 no
    run, however long, ends in ValueError. *)
Theorem buffer_size_check {A} (data : list (option A)) (buffer_size : Z) (w : world) :
  ((buffer_size ≤ 0)%Z →
   produces bsg_list_step (buffered_shuffle_generator data buffer_size) w
     [] (Raised ValueError w))
  ∧ ((1 ≤ buffer_size)%Z →
     ∀ fuel w',
       (run bsg_list_step fuel (buffered_shuffle_generator data buffer_size) w).2
       ≠ Raised ValueError w').
Proof.
  split; intros Hbs.
  - apply produces_raise. simpl. by rewrite decide_True.
  - intros fuel w'. apply (run_never_raises bsg_list_step bsg_ready); [|done].
    intros s w0 Hs. pose proof (bsg_ready_step s w0 Hs) as Hstep.
    by destruct (bsg_list_step s w0).
Qed.

Lemma buffer_size_check_witness :
  ((0 ≤ 0)%Z ∧
   produces bsg_list_step (buffered_shuffle_generator [Some 1; Some 2] 0)
     empty_world [] (Raised ValueError empty_world))
  ∧ ((1 ≤ 1)%Z ∧
     ∀ fuel w',
       (run bsg_list_step fuel (buffered_shuffle_generator [Some 1; Some 2] 1)
          empty_world).2 ≠ Raised ValueError w').
Proof.
  split; (split; [lia|]).
  - apply (buffer_size_check [Some 1; Some 2] 0 empty_world). lia.
  - apply (buffer_size_check [Some 1; Some 2] 1 empty_world). lia.
Defined.

(** C4 (amended): with buffer_size = 1 the generator runs to completion
    and yields the input sequence with its None items removed, in input
    order.  For an input without None this is a pure pass-through, one
    position late: the first loop yields every item but the last, each
    evicted by its successor, leaves the last in the slot, and the drain
    yields it; the output equals the input. *)
Theorem one_slot_in_order {A} (data : list (option A)) (w : world) :
  (∃ t, produces bsg_list_step (buffered_shuffle_generator data 1) w
          (filter is_Some data) (Finished (set_rng t w)))
  ∧ (∀ xs : list A, data = Some <$> xs → filter is_Some data = data)
  ∧ (∀ (xs : list A) (x : A), data = Some <$> xs ++ [x] →
       ∃ t, fill_loop data (replicate (Z.to_nat 1) None) (rng w)
            = (Some <$> xs, [Some x], t)).
Proof.
  split_and!.
  - apply one_slot_produces.
  - intros xs ->. apply flush_loop_Some.
  - intros xs x ->. destruct (fill_loop_delay xs x None (rng w)) as [t Hfill].
    exists t. change (replicate (Z.to_nat 1) None) with [@None A].
    rewrite Hfill, flush_loop_cons, flush_loop_Some. done.
Qed.

Lemma one_slot_in_order_witness :
  ([Some 1; Some 2; Some 3] = Some <$> [1; 2; 3]
   ∧ filter is_Some [Some 1; Some 2; Some 3] = [Some 1; Some 2; Some 3])
  ∧ [Some 1; Some 2; Some 3] = Some <$> [1; 2] ++ [3]
  ∧ ∃ t, fill_loop [Some 1; Some 2; Some 3] (replicate (Z.to_nat 1) None)
           (rng empty_world)
         = (Some <$> [1; 2], [Some 3], t).
Proof.
  destruct (one_slot_in_order [Some 1; Some 2; Some 3] empty_world)
    as (_ & Hsame & Hdelay).
  split; [split; [reflexivity|exact (Hsame [1; 2; 3] eq_refl)]|].
  split; [reflexivity|exact (Hdelay [1; 2] 3 eq_refl)].
Defined.

(** C4 as stated fails on an input that carries None: the output is not
    the input. *)
Lemma one_slot_loses_None :
  produces bsg_list_step
    (buffered_shuffle_generator [Some 1; None; Some 2] 1) empty_world
    [Some 1; Some 2] (Finished empty_world)
  ∧ ∀ out o,
      produces bsg_list_step
        (buffered_shuffle_generator [Some 1; None; Some 2] 1) empty_world out o →
      out ≠ [Some 1; None; Some 2].
Proof.
  assert (produces bsg_list_step
            (buffered_shuffle_generator [Some 1; None; Some 2] 1) empty_world
            [Some 1; Some 2] (Finished empty_world)) as Hp.
  { by apply (bsg_produces [Some 1; None; Some 2] 1 empty_world
                [Some 1; Some 2] []). }
  split; [done|]. intros out o Ho.
  by destruct (produces_det _ _ _ _ _ _ _ Hp Ho) as [<- _].
Qed.

(** ** The generator against the two-phase description *)

Lemma omap_cons {C D} (f : C → option D) x l :
  omap f (x :: l)
  = match f x with Some y => y :: omap f l | None => omap f l end.
Proof. done. Qed.

Section two_phase_facts.
Context {A : Type}.

Lemma fill_phase_length {V} choices (data : list V) (slots : list (option V)) :
  length (fill_phase choices data slots).2 = length slots.
Proof.
  revert choices slots.
  induction data as [|item data IH]; intros [|k choices] slots; try done.
  simpl. unfold swap_in.
  destruct (slots !! k) as [[held|]|]; simpl;
    specialize (IH choices (<[k := Some item]> slots));
    destruct (fill_phase choices data (<[k := Some item]> slots));
    simpl in *; by rewrite IH, length_insert.
Qed.

(** The description does not look at the items either. *)
Lemma fill_phase_fmap {V W} (h : V → W) choices (data : list V)
    (slots : list (option V)) :
  fill_phase choices (h <$> data) (fmap (M:=option) h <$> slots)
  = (h <$> (fill_phase choices data slots).1,
     fmap (M:=option) h <$> (fill_phase choices data slots).2).
Proof.
  revert choices slots.
  induction data as [|item data IH]; intros [|k choices] slots; try done.
  rewrite fmap_cons. cbn [fill_phase]. unfold swap_in.
  rewrite list_lookup_fmap.
  destruct (slots !! k) as [[held|]|]; simpl;
    change (Some (h item)) with (fmap (M:=option) h (Some item));
    rewrite <-(list_fmap_insert (fmap (M:=option) h) slots k (Some item)), IH;
    by destruct (fill_phase choices data (<[k := Some item]> slots)).
Qed.

Lemma drain_phase_fmap {V W} (h : V → W) (slots : list (option V)) :
  drain_phase (fmap (M:=option) h <$> slots) = h <$> drain_phase slots.
Proof.
  unfold drain_phase.
  induction slots as [|[v|] slots IH]; [done| |];
    rewrite fmap_cons, !omap_cons; simpl; by rewrite IH.
Qed.

(** On a buffer the drain of the description is the second loop. *)
Lemma flush_loop_drain (buffer : list (option A)) :
  flush_loop buffer = Some <$> drain_phase buffer.
Proof.
  unfold drain_phase.
  induction buffer as [|[y|] buffer IH]; [done| |];
    rewrite flush_loop_cons, IH, omap_cons; done.
Qed.

(** The first loop over an input without None is the fill/swap phase on
    the slot indices it draws; the buffer is the slots. *)
Lemma fill_loop_phase (xs : list A) (buffer : list (option A)) t :
  fill_loop (Some <$> xs) buffer t
  = (Some <$> (fill_phase (random.slot_draws (length buffer) (length xs) t).1
                 xs buffer).1,
     (fill_phase (random.slot_draws (length buffer) (length xs) t).1
        xs buffer).2,
     (random.slot_draws (length buffer) (length xs) t).2).
Proof.
  revert buffer t. induction xs as [|x xs IH]; intros buffer t; [done|].
  rewrite fmap_cons. cbn [fill_loop length random.slot_draws].
  destruct (random.randbelow (length buffer) t) as [index t1].
  rewrite IH, length_insert.
  destruct (random.slot_draws (length buffer) (length xs) t1)
    as [indices t2]. cbn [fst snd fill_phase]. unfold swap_in.
  destruct (buffer !! index) as [[held|]|]; simpl;
    by destruct (fill_phase indices xs (<[index := Some x]> buffer)).
Qed.

Lemma shuffle_loops_two_phase (xs : list A) (buffer_size : Z) t :
  shuffle_loops (Some <$> xs) buffer_size t
  = (two_phase
       (random.slot_draws (Z.to_nat buffer_size) (length xs) t).1
       (λ slots,
          (random.shuffle slots
             (random.slot_draws (Z.to_nat buffer_size) (length xs) t).2).1)
       (Some <$> xs) (Z.to_nat buffer_size),
     (random.shuffle
        (fill_phase (random.slot_draws (Z.to_nat buffer_size) (length xs) t).1
           xs (replicate (Z.to_nat buffer_size) None)).2
        (random.slot_draws (Z.to_nat buffer_size) (length xs) t).2).2).
Proof.
  unfold shuffle_loops, two_phase.
  rewrite fill_loop_phase, length_replicate.
  destruct (random.slot_draws (Z.to_nat buffer_size) (length xs) t)
    as [choices t1]. cbn [fst snd].
  change (replicate (Z.to_nat buffer_size) (@None (option A)))
    with (replicate (Z.to_nat buffer_size) (fmap (M:=option) (@Some A) None)).
  rewrite <-fmap_replicate, fill_phase_fmap.
  destruct (fill_phase choices xs (replicate (Z.to_nat buffer_size) None))
    as [out slots]. cbn [fst snd].
  rewrite shuffle_fmap.
  destruct (random.shuffle slots t1) as [permuted t2]. cbn [fst snd].
  by rewrite drain_phase_fmap, flush_loop_drain.
Qed.

(** With the slot choices and then the draws of an order on the tape,
    the loops are the two phases on those choices and that order. *)
Lemma shuffle_loops_in_order (xs : list A) (buffer_size : Z)
    choices draws order :
  length choices = length xs →
  Forall (λ k, k < Z.to_nat buffer_size) choices →
  random.shuffle (seq 0 (Z.to_nat buffer_size)) draws = (order, []) →
  shuffle_loops (Some <$> xs) buffer_size (choices ++ draws)
  = (two_phase choices (in_order order) (Some <$> xs) (Z.to_nat buffer_size),
     []).
Proof.
  intros Hlen Hall Hsh.
  rewrite shuffle_loops_two_phase, <-Hlen, slot_draws_exact by done.
  cbn [fst snd]. f_equal.
  - unfold two_phase.
    pose proof (fill_phase_length choices (Some <$> xs)
                  (replicate (Z.to_nat buffer_size) None)) as Hslots.
    rewrite length_replicate in Hslots.
    destruct (fill_phase choices (Some <$> xs)
                (replicate (Z.to_nat buffer_size) None)) as [out slots].
    cbn [snd] in Hslots.
    by rewrite (shuffle_by_position None slots draws), Hslots, Hsh.
  - pose proof (fill_phase_length choices xs
                  (replicate (Z.to_nat buffer_size) None)) as Hslots.
    rewrite length_replicate in Hslots.
    by rewrite (shuffle_by_position None _ draws), Hslots, Hsh.
Qed.

End two_phase_facts.

(** C2 (amended): on an input without None the generator is the
    two-phase algorithm.  Whatever the random state, the run is the
    fill/swap phase over one slot index per incoming item, the index
    being a draw of [randrange(0, buffer_size)] and so in
    [0, buffer_size), followed by the drain of the slots as
    [random.shuffle] leaves them.  The index is the draw as drawn; the
    shuffle permutes the slots by position, empty or not, and every
    order of the positions is the outcome of exactly one vector of draws:
    with the draws of the random module uniform on their ranges, each
    index and each order is as likely as any other.  Every sequence of slot
    choices with every order of the slots is taken, on the random state
    that holds those draws. *)
Theorem two_phase_algorithm {A} (xs : list A) (buffer_size : Z) (w : world) :
  (1 ≤ buffer_size)%Z →
  (∃ choices t1 t2,
     random.slot_draws (Z.to_nat buffer_size) (length xs) (rng w)
     = (choices, t1)
     ∧ length choices = length xs
     ∧ Forall (λ k, k < Z.to_nat buffer_size) choices
     ∧ produces bsg_list_step
         (buffered_shuffle_generator (Some <$> xs) buffer_size) w
         (two_phase choices (λ slots, (random.shuffle slots t1).1)
            (Some <$> xs) (Z.to_nat buffer_size))
         (Finished (set_rng t2 w)))
  ∧ (∀ choices t,
       Forall (λ k, k < Z.to_nat buffer_size) choices →
       random.slot_draws (Z.to_nat buffer_size) (length choices) (choices ++ t)
       = (choices, t))
  ∧ (∀ (slots : list (option (option A))) t,
       (random.shuffle slots t).1
       = in_order (random.shuffle (seq 0 (length slots)) t).1 slots
       ∧ (random.shuffle (seq 0 (length slots)) t).1 ≡ₚ seq 0 (length slots))
  ∧ (∀ order,
       order ≡ₚ seq 0 (Z.to_nat buffer_size) →
       ∃ draws,
         random.in_range draws (random.shuffle_bounds (Z.to_nat buffer_size))
         ∧ (∀ t, random.shuffle (seq 0 (Z.to_nat buffer_size)) (draws ++ t)
                 = (order, t))
         ∧ (∀ draws',
              random.in_range draws'
                (random.shuffle_bounds (Z.to_nat buffer_size)) →
              (random.shuffle (seq 0 (Z.to_nat buffer_size)) draws').1 = order →
              draws' = draws)
         ∧ ∀ choices,
             length choices = length xs →
             Forall (λ k, k < Z.to_nat buffer_size) choices →
             produces bsg_list_step
               (buffered_shuffle_generator (Some <$> xs) buffer_size)
               (set_rng (choices ++ draws) w)
               (two_phase choices (in_order order)
                  (Some <$> xs) (Z.to_nat buffer_size))
               (Finished (set_rng [] w))).
Proof.
  intros Hbs. split_and!.
  - pose proof (bsg_produces (Some <$> xs) buffer_size w _ _ Hbs
                  (shuffle_loops_two_phase xs buffer_size (rng w))) as Hp.
    destruct (slot_draws_lt (Z.to_nat buffer_size) (length xs) (rng w))
      as [Hlen Hall]; [lia|].
    destruct (random.slot_draws (Z.to_nat buffer_size) (length xs) (rng w))
      as [choices t1]. by eexists choices, t1, _.
  - intros choices t. apply slot_draws_exact.
  - intros slots t. split; [|apply shuffle_Permutation].
    by rewrite (shuffle_by_position None slots t).
  - intros order Horder.
    destruct (shuffle_orders _ _ Horder) as (draws & Hrange & Hsh & Huniq).
    exists draws. split_and!; [done..|].
    intros choices Hlen Hall.
    pose proof (Hsh []) as Hd. rewrite app_nil_r in Hd.
    exact (bsg_produces (Some <$> xs) buffer_size
             (set_rng (choices ++ draws) w) _ _ Hbs
             (shuffle_loops_in_order xs buffer_size choices draws order
                Hlen Hall Hd)).
Qed.

Lemma two_phase_algorithm_witness :
  (1 ≤ 2)%Z
  ∧ (∃ t2,
       produces bsg_list_step
         (buffered_shuffle_generator (Some <$> [10; 20; 30]) 2)
         {| heap := ∅; rng := [0; 0; 1; 0] |}
         (two_phase [0; 0; 1] (λ slots, (random.shuffle slots [0]).1)
            (Some <$> [10; 20; 30]) (Z.to_nat 2))
         (Finished (set_rng t2 {| heap := ∅; rng := [0; 0; 1; 0] |})))
  ∧ two_phase [0; 0; 1] (λ slots, (random.shuffle slots [0]).1)
      (Some <$> [10; 20; 30]) (Z.to_nat 2)
    = [Some 10; Some 30; Some 20].
Proof.
  split; [lia|]. split; [|reflexivity].
  destruct (two_phase_algorithm [10; 20; 30] 2
              {| heap := ∅; rng := [0; 0; 1; 0] |} ltac:(lia))
    as ((choices & t1 & t2 & Hdraws & _ & _ & Hp) & _).
  injection Hdraws as <- <-. by exists t2.
Defined.

(** C2 as stated fails on an input that carries None.  In the
    description a slot that holds the item None holds an item: the next
    item sent to that slot evicts it and it is emitted.  The generator
    takes that slot for empty and emits nothing. *)
Lemma two_phase_keeps_None :
  two_phase [0; 0] id [@None nat; Some 7] 1 = [None; Some 7]
  ∧ produces bsg_list_step
      (buffered_shuffle_generator [None; Some 7] 1) empty_world
      [Some 7] (Finished empty_world)
  ∧ ∀ choices permute,
      length choices = length [@None nat; Some 7] →
      Forall (λ k, k < 1) choices →
      (∀ slots : list (option (option nat)), permute slots ≡ₚ slots) →
      two_phase choices permute [None; Some 7] 1 = [None; Some 7]
      ∧ ∀ out o,
          produces bsg_list_step
            (buffered_shuffle_generator [None; Some 7] 1) empty_world out o →
          out ≠ two_phase choices permute [None; Some 7] 1.
Proof.
  assert (produces bsg_list_step
            (buffered_shuffle_generator [None; Some 7] 1) empty_world
            [Some 7] (Finished empty_world)) as Hp.
  { by apply (bsg_produces [None; Some 7] 1 empty_world [Some 7] []). }
  split; [done|]. split; [done|]. intros choices permute Hlen Hall Hperm.
  assert (two_phase choices permute [None; Some 7] 1 = [None; Some 7]) as Htwo.
  { destruct choices as [|k1 [|k2 [|k3 choices]]]; try done.
    apply Forall_cons in Hall as [Hk1 Hall].
    apply Forall_cons in Hall as [Hk2 _].
    assert (k1 = 0) as -> by lia. assert (k2 = 0) as -> by lia.
    unfold two_phase. simpl.
    specialize (Hperm [Some (Some 7)]).
    apply Permutation_singleton_r in Hperm. by rewrite Hperm. }
  split; [done|]. intros out o Ho.
  destruct (produces_det _ _ _ _ _ _ _ Hp Ho) as [<- _].
  by rewrite Htwo.
Qed.

(** ** Wrapped generators *)

Lemma outcome_map_ended {St St'} (wrap : St → St') ending w :
  outcome_map wrap (ended ending w) = ended ending w.
Proof. by destruct ending. Qed.

Section wrappers.
Context {St V : Type} (data_step : stepper St V).

(** While the transform returns, the loop under [if transform:] yields
    what the source yields, passed through the transform, and stands
    where the source stands. *)
Lemma run_tg_map fuel data (f : callable V) (g : V → V) w :
  Forall (λ item, call f item = inr (g item)) (run data_step fuel data w).1 →
  run (tg_step data_step) fuel (TgMap data f) w
  = (g <$> (run data_step fuel data w).1,
     outcome_map (λ d, TgMap d f) (run data_step fuel data w).2).
Proof.
  revert data w. induction fuel as [|n IH]; intros data w Hg; [done|].
  simpl in *.
  destruct (data_step data w) as [d1 w1|item d1 w1|w1|e w1]; try done.
  - by apply IH.
  - destruct (run data_step n d1 w1) as [out o] eqn:Hn. simpl in Hg.
    apply Forall_cons in Hg as [Hitem Hg]. rewrite Hitem.
    rewrite IH by (by rewrite Hn). by rewrite Hn.
Qed.


Lemma run_tg_pass fuel data w :
  run (tg_step data_step) fuel (TgPass data) w
  = ((run data_step fuel data w).1,
     outcome_map TgPass (run data_step fuel data w).2).
Proof.
  revert data w. induction fuel as [|n IH]; intros data w; [done|].
  simpl. destruct (data_step data w) as [d1 w1|item d1 w1|w1|e w1]; try done.
  rewrite IH. by destruct (run data_step n d1 w1).
Qed.

Lemma fmap_fixes {B} (g : B → B) (l : list B) :
  Forall (λ item, g item = item) l → g <$> l = l.
Proof.
  intros Hg. rewrite <-(list_fmap_id l) at 2. by apply Forall_fmap_ext_1.
Qed.

(** The first step tests the transform; then the stage is in one of its
    two loops. *)
Lemma run_tg_start fuel data transform (g : V → V) w :
  transform_computes transform g (run data_step fuel data w).1 →
  run (tg_step data_step) (S fuel) (transform_generator data transform) w
  = (g <$> (run data_step fuel data w).1,
     outcome_map (tg_loop transform) (run data_step fuel data w).2).
Proof.
  unfold transform_computes, tg_loop. intros Hg.
  destruct transform as [f|]; simpl.
  - destruct (truthy f) as [e|[|]]; [done| |].
    + by apply run_tg_map.
    + by rewrite run_tg_pass, fmap_fixes.
  - by rewrite run_tg_pass, fmap_fixes.
Qed.

(** The transform stage changes neither how far the source gets nor how
    it ends; it only maps what comes through. *)
Lemma tg_produces_ended data transform (g : V → V) w out ending w' :
  produces data_step data w out (ended ending w') →
  transform_computes transform g out →
  produces (tg_step data_step) (transform_generator data transform) w
    (g <$> out) (ended ending w').
Proof.
  intros [n Hn] Hg. exists (S n). intros [|m] Hm; [lia|].
  pose proof (Hn m ltac:(lia)) as Hrun.
  rewrite (run_tg_start m data transform g) by (by rewrite Hrun).
  rewrite Hrun. simpl. by rewrite outcome_map_ended.
Qed.

Lemma tg_produces data transform (g : V → V) w out w' :
  produces data_step data w out (Finished w') →
  transform_computes transform g out →
  produces (tg_step data_step) (transform_generator data transform) w
    (g <$> out) (Finished w').
Proof. apply (tg_produces_ended data transform g w out None w'). Qed.


End wrappers.

Section transform_list.
Context {V : Type}.



End transform_list.




(** ** chunked_data_generator *)

Section chunk_facts.
Context (fs : filesystem) {A : Type} (str : string → A).

Lemma cdg_items_produces copy i data w out o :
  produces (cdg_step fs str) (CdgChunks copy i) w out o →
  produces (cdg_step fs str) (CdgItems copy i data) w
    ((Some ∘ str <$> data) ++ out) o.
Proof.
  intros Hp. induction data as [|item data IH].
  - by eapply produces_tau.
  - by eapply produces_yield.
Qed.

Lemma cdg_chunks_produces copy w done rest chunks :
  heap w !! copy = Some (done ++ rest) →
  readable fs rest chunks →
  produces (cdg_step fs str) (CdgChunks copy (length done)) w
    (Some ∘ str <$> concat chunks) (Finished w).
Proof.
  intros Hheap Hread. revert done Hheap.
  induction Hread as [|p lines rest chunks Hp Hread IH]; intros done Hheap.
  - apply produces_stop. simpl. rewrite Hheap, app_nil_r.
    by rewrite lookup_ge_None_2.
  - eapply produces_tau.
    { simpl. by rewrite Hheap, list_lookup_middle, Hp. }
    simpl. rewrite fmap_app. apply cdg_items_produces.
    replace (S (length done)) with (length (done ++ [p]))
      by (rewrite length_app; simpl; lia).
    apply IH. by rewrite <-(assoc (++)).
Qed.

Lemma cdg_produces paths w l chunks :
  heap w !! paths = Some l →
  readable fs l chunks →
  produces (cdg_step fs str) (chunked_data_generator paths false) w
    (Some ∘ str <$> concat chunks) (Finished (alloc l w).2).
Proof.
  intros Hheap Hread. eapply produces_tau.
  { simpl. by rewrite Hheap. }
  apply (cdg_chunks_produces _ _ [] l chunks); [|done].
  simpl. apply lookup_insert_eq.
Qed.

Lemma run_gen_inl fuel c w :
  run (gen_step fs str) fuel (inl c) w
  = ((run (cdg_step fs str) fuel c w).1,
     outcome_map inl (run (cdg_step fs str) fuel c w).2).
Proof.
  revert c w. induction fuel as [|n IH]; intros c w; [done|].
  simpl. destruct (cdg_step fs str c w) as [c1 w1|item c1 w1|w1|e w1]; try done.
  rewrite IH. by destruct (run (cdg_step fs str) n c1 w1).
Qed.

(** A pass with shuffling off: the files in list order, each file's lines
    in file order, through the transform. *)
Lemma pass_produces (self : ChunkedDataset) (g : option A → option A)
    w l chunks :
  shuffle self = false →
  heap w !! chunk_file_paths self = Some l →
  readable fs l chunks →
  transform_computes (transform self) g (Some ∘ str <$> concat chunks) →
  produces (iter_step fs str) (ChunkedDataset_iter self) w
    (g <$> (Some ∘ str <$> concat chunks))
    (Finished (alloc l w).2).
Proof.
  intros Hsh Hheap Hread Hg. unfold ChunkedDataset_iter. rewrite Hsh.
  apply tg_produces; [|done].
  destruct (cdg_produces _ _ _ _ Hheap Hread) as [n Hn].
  exists n. intros m Hm. by rewrite run_gen_inl, Hn.
Qed.

End chunk_facts.

(** ** ChunkedDataset.__init__ *)


Lemma world_eta w : {| heap := heap w; rng := rng w |} = w.
Proof. by destruct w. Qed.

Lemma alter_lookup_insert (h : gmap loc (list string)) a f l :
  h !! a = Some l → alter f a h = <[a := f l]> h.
Proof.
  intros Ha. apply map_eq. intros b. destruct (decide (a = b)) as [<-|].
  - by rewrite lookup_alter_eq, lookup_insert_eq, Ha.
  - by rewrite lookup_alter_ne, lookup_insert_ne.
Qed.

Section init_facts.
Context (fs : filesystem) {A : Type}.

(** The scan appends the chunk entries, as joined paths, in directory
    order, and touches nothing else. *)
Lemma foldl_scan_entry path a entries w acc :
  heap w !! a = Some acc →
  foldl (scan_entry path a) w entries
  = set_heap (<[a := acc ++ ((λ e, path_join path (name e))
                              <$> filter is_chunk entries)]> (heap w)) w.
Proof.
  revert w acc. induction entries as [|e entries IH]; intros w acc Ha.
  { rewrite filter_nil. simpl. rewrite app_nil_r, insert_id by done.
    apply eq_sym, world_eta. }
  simpl. unfold scan_entry at 2. destruct (is_chunk e) eqn:He.
  - rewrite filter_cons_True by (by rewrite He).
    unfold list_append. rewrite (alter_lookup_insert _ _ _ _ Ha).
    erewrite IH; [|simpl; apply lookup_insert_eq].
    unfold set_heap. simpl. rewrite insert_insert_eq.
    by rewrite <-(assoc (++)).
  - rewrite filter_cons_False by (by intros H; rewrite He in H). by apply IH.
Qed.

Lemma init_scanned path shuffle buffer_size
    (transform : option (callable (option A))) w entries :
  scandir fs path = Some entries →
  ChunkedDataset_init fs path shuffle buffer_size transform w
  = inr ({| chunk_file_paths := fresh (dom (heap w)); shuffle := shuffle;
            buffer_size := buffer_size; transform := transform |},
         set_heap (<[fresh (dom (heap w)) :=
                      merge_sort String.le
                        ((λ e, path_join path (name e))
                           <$> filter is_chunk entries)]> (heap w)) w).
Proof.
  intros Hscan. unfold ChunkedDataset_init, alloc. rewrite Hscan.
  erewrite foldl_scan_entry; [|simpl; apply lookup_insert_eq].
  unfold list_sort, set_heap. simpl.
  erewrite alter_lookup_insert; [|apply lookup_insert_eq].
  by rewrite !insert_insert_eq.
Qed.

End init_facts.



(** ** Which list objects a pass touches *)

Section frame_facts.
Context (fs : filesystem) {A : Type} (str : string → A).
Context (a : loc) (l : list string).

Lemma alloc_fresh l' w : (alloc l' w).1 ∉ dom (heap w).
Proof. apply is_fresh. Qed.

Lemma alloc_holds l' w : (list_at a l) w → (list_at a l) (alloc l' w).2.
Proof.
  unfold list_at. intros Ha. simpl. rewrite lookup_insert_ne; [done|].
  intros Heq. apply (alloc_fresh l' w). simpl. rewrite Heq.
  by eapply elem_of_dom_2.
Qed.

Lemma cdg_step_keeps : step_keeps (list_at a l) (cdg_step fs str).
Proof.
  intros [paths sh|paths i|paths i [|item data]] w Ha; simpl; try done.
  - destruct (heap w !! paths) as [l0|] eqn:Hpaths; [|done].
    pose proof (alloc_holds l0 w Ha) as Hcopy.
    pose proof (alloc_fresh l0 w) as Hfresh.
    unfold list_at in *. simpl in Hcopy, Hfresh.
    destruct sh; [|done].
    destruct (random.shuffle l0 (rng w)) as [l' t']. simpl.
    rewrite lookup_insert_ne; [done|].
    intros Heq. apply Hfresh. rewrite Heq. by eapply elem_of_dom_2.
  - destruct (heap w !! paths) as [l0|]; [|done].
    destruct (l0 !! i) as [p|]; [|done].
    by destruct (gzip_lines fs p).
Qed.

Lemma bsg_step_keeps {St} (data_step : stepper St (option A)) :
  step_keeps (list_at a l) data_step → step_keeps (list_at a l) (bsg_step data_step).
Proof.
  intros Hdata [data bs|data buffer|data buffer index item|rest] w Ha; simpl.
  - by destruct (decide _).
  - specialize (Hdata data w Ha).
    destruct (data_step data w) as [d1 w1|item d1 w1|w1|e w1]; try done.
    + destruct (random.randrange 0 (length buffer) (rng w1)) as [e|[index t1]];
        [done|].
      by destruct (buffer !! index) as [[y|]|].
    + by destruct (random.shuffle buffer (rng w1)).
  - done.
  - by destruct rest as [|[y|] rest].
Qed.

Lemma gen_step_keeps : step_keeps (list_at a l) (gen_step fs str).
Proof.
  intros [c|b] w Ha; simpl.
  - pose proof (cdg_step_keeps c w Ha) as Hc.
    by destruct (cdg_step fs str c w).
  - pose proof (bsg_step_keeps _ cdg_step_keeps b w Ha) as Hb.
    by destruct (bsg_step (cdg_step fs str) b w).
Qed.

Lemma tg_step_keeps {St V} (data_step : stepper St V) :
  step_keeps (list_at a l) data_step → step_keeps (list_at a l) (tg_step data_step).
Proof.
  intros Hdata [data [f|]|data f|data] w Ha; simpl; try done.
  - by destruct (truthy f) as [e|[|]].
  - specialize (Hdata data w Ha).
    destruct (data_step data w) as [d1 w1|item d1 w1|w1|e w1]; try done.
    by destruct (call f item).
  - specialize (Hdata data w Ha). by destruct (data_step data w).
Qed.

Lemma iter_step_keeps : step_keeps (list_at a l) (iter_step fs str).
Proof. apply tg_step_keeps, gen_step_keeps. Qed.

End frame_facts.

(** C8: however far a pass is driven (no step, some steps, or to its
    end), with the shuffle flag on or off, the list object behind
    [chunk_file_paths] holds what it held before; the chunk generator
    begins by making a new list object, equal to the dataset's up to order,
    and that copy is the one it shuffles and reads. *)
Theorem chunk_file_paths_unchanged (fs : filesystem) {A} (str : string → A)
    (self : ChunkedDataset) (w : world) (l : list string) :
  heap w !! chunk_file_paths self = Some l →
  (∀ fuel,
     heap (world_of (run (iter_step fs str) fuel (ChunkedDataset_iter self) w).2)
       !! chunk_file_paths self = Some l)
  ∧ ∃ copy l' w',
      cdg_step fs str
        (chunked_data_generator (chunk_file_paths self) (shuffle self)) w
      = Tau (CdgChunks copy 0) w'
      ∧ (copy ∉ dom (heap w))
      ∧ heap w' !! copy = Some l'
      ∧ l' ≡ₚ l
      ∧ heap w' !! chunk_file_paths self = Some l.
Proof.
  intros Ha. split.
  - intros fuel.
    apply (run_invariant (iter_step fs str) (λ _, True)
             (list_at (chunk_file_paths self) l)); [|done..].
    intros s w0 _ Hw0.
    pose proof (iter_step_keeps fs str (chunk_file_paths self) l s w0 Hw0) as Hk.
    by destruct (iter_step fs str s w0).
  - pose proof (alloc_holds (chunk_file_paths self) l l w Ha) as Hkept.
    pose proof (alloc_fresh l w) as Hfresh.
    unfold list_at in Hkept. simpl in Hkept, Hfresh.
    simpl. rewrite Ha. destruct (shuffle self).
    + pose proof (shuffle_Permutation l (rng w)) as Hperm.
      destruct (random.shuffle l (rng w)) as [l' t'].
      eexists _, l', _. split_and!; [done|done| |done|].
      * simpl. apply lookup_insert_eq.
      * simpl. rewrite lookup_insert_ne; [done|].
        intros Heq. apply Hfresh. rewrite Heq. by eapply elem_of_dom_2.
    + eexists _, l, _. split_and!; [done|done| |done|done].
      simpl. apply lookup_insert_eq.
Qed.

Lemma chunk_file_paths_unchanged_witness :
  heap (demo_world [0; 1; 1; 0]) !! chunk_file_paths (demo_dataset true 2)
  = Some ["data/a.gz"; "data/b.gz"]
  ∧ ∀ fuel,
      heap (world_of (run (iter_step demo_fs id) fuel
                        (ChunkedDataset_iter (demo_dataset true 2))
                        (demo_world [0; 1; 1; 0])).2)
        !! chunk_file_paths (demo_dataset true 2)
      = Some ["data/a.gz"; "data/b.gz"].
Proof.
  split; [reflexivity|].
  apply (chunk_file_paths_unchanged demo_fs id (demo_dataset true 2)
           (demo_world [0; 1; 1; 0]) ["data/a.gz"; "data/b.gz"]).
  reflexivity.
Defined.

(** ** Passes without the shuffle stage *)

(** C5: a dataset constructed with shuffling off, whose chunk files can
    all be read, holds its paths sorted by string order; a pass runs to
    completion and yields, through the transform stage (which gives
    [g item] on each item: [g] is the identity when no transform was
    given), the lines of the files taken in that order, each file's lines
    in file order; and a second pass yields the same sequence. *)
Theorem unshuffled_pass (fs : filesystem) {A} (str : string → A) (path : string)
    (buffer_size : Z) (transform : option (callable (option A)))
    (g : option A → option A)
    (w : world) (self : ChunkedDataset) (w1 : world)
    (l : list string) (chunks : list (list string)) :
  ChunkedDataset_init fs path false buffer_size transform w = inr (self, w1) →
  heap w1 !! chunk_file_paths self = Some l →
  readable fs l chunks →
  transform_computes transform g (Some ∘ str <$> concat chunks) →
  Sorted String.le l
  ∧ ∃ w2 w3,
      produces (iter_step fs str) (ChunkedDataset_iter self) w1
        (g <$> (Some ∘ str <$> concat chunks)) (Finished w2)
      ∧ produces (iter_step fs str) (ChunkedDataset_iter self) w2
          (g <$> (Some ∘ str <$> concat chunks)) (Finished w3).
Proof.
  intros Hinit Hl Hread Hg.
  destruct (scandir fs path) as [entries|] eqn:Hscan.
  2: { unfold ChunkedDataset_init in Hinit. simpl in Hinit.
       by rewrite Hscan in Hinit. }
  rewrite (init_scanned fs path false buffer_size transform w entries Hscan)
    in Hinit.
  injection Hinit as <- <-. simpl in Hl. rewrite lookup_insert_eq in Hl.
  injection Hl as <-. split.
  { apply Sorted_merge_sort; apply _. }
  set (self := {| chunk_file_paths := fresh (dom (heap w)) |}).
  set (l := merge_sort String.le _) in *.
  set (w1 := set_heap _ w).
  assert (list_at (chunk_file_paths self) l w1) as H1.
  { unfold list_at. simpl. apply lookup_insert_eq. }
  exists (alloc l w1).2, (alloc l (alloc l w1).2).2. split.
  - by apply (pass_produces fs str self g w1 l chunks).
  - apply (pass_produces fs str self g _ l chunks); [done| |done..].
    by apply alloc_holds.
Qed.

(** The scenario of the design: a directory with a.gz holding the lines
    a, b and b.gz holding c (and entries that are not chunk files),
    shuffling off, yields a, b, c. *)
Lemma unshuffled_pass_witness :
  (ChunkedDataset_init demo_fs "data" false 1024 None empty_world
   = inr (demo_dataset false 1024, demo_world [])
   ∧ heap (demo_world []) !! chunk_file_paths (demo_dataset false 1024)
     = Some ["data/a.gz"; "data/b.gz"]
   ∧ readable demo_fs ["data/a.gz"; "data/b.gz"] [["a"; "b"]; ["c"]]
   ∧ transform_computes None id [Some "a"; Some "b"; Some "c"])
  ∧ Sorted String.le ["data/a.gz"; "data/b.gz"]
  ∧ ∃ w2 w3,
      produces (iter_step demo_fs id)
        (ChunkedDataset_iter (demo_dataset false 1024)) (demo_world [])
        [Some "a"; Some "b"; Some "c"] (Finished w2)
      ∧ produces (iter_step demo_fs id)
          (ChunkedDataset_iter (demo_dataset false 1024)) w2
          [Some "a"; Some "b"; Some "c"] (Finished w3).
Proof.
  assert (readable demo_fs ["data/a.gz"; "data/b.gz"] [["a"; "b"]; ["c"]])
    as Hread by (repeat constructor).
  assert (transform_computes (V:=option string) None id
            [Some "a"; Some "b"; Some "c"]) as Hg by (by repeat constructor).
  split; [split_and!; [reflexivity|reflexivity|exact Hread|exact Hg]|].
  apply (unshuffled_pass demo_fs id "data" 1024 None id empty_world
           (demo_dataset false 1024) (demo_world [])
           ["data/a.gz"; "data/b.gz"] [["a"; "b"]; ["c"]]);
    [reflexivity|reflexivity|exact Hread|exact Hg].
Defined.



(** * Further properties of the pipeline *)

(** ** Where a run is suspended *)

Lemma shuffle_length {A} (x : list A) t : length (random.shuffle x t).1 = length x.
Proof. apply Permutation_length, shuffle_Permutation. Qed.

Lemma bsg_sized_step {St A} (data_step : stepper St (option A)) n s w :
  bsg_sized n s →
  match bsg_step data_step s w with
  | Tau s' _ | Yield _ s' _ => bsg_sized n s'
  | Stop _ | Raise _ _ => True
  end.
Proof.
  destruct s as [data bs|data buffer|data buffer index item|rest]; simpl.
  - intros <-. destruct (decide _); [done|]. simpl. apply length_replicate.
  - intros Hlen.
    destruct (data_step data w) as [d1 w1|item d1 w1|w1|e w1]; try done.
    + destruct (random.randrange 0 (length buffer) (rng w1)) as [e|[index t1]];
        [done|].
      destruct (buffer !! index) as [[y|]|]; simpl; try done.
      by rewrite length_insert.
    + pose proof (shuffle_length buffer (rng w1)) as Hsh.
      destruct (random.shuffle buffer (rng w1)) as [b' t']. simpl in *. lia.
  - intros Hlen. by rewrite length_insert.
  - intros Hlen. destruct rest as [|[y|] rest]; simpl in *; try done; lia.
Qed.

(** X1: whatever the source and however far the run has got, the buffer
    of the shuffle generator has exactly buffer_size slots: it is
    allocated once and never resized.  In the drain at most buffer_size
    slots are left to visit. *)
Theorem buffer_never_resized {St A} (data_step : stepper St (option A))
    (data : St) (buffer_size : Z) (w : world) (fuel : nat)
    (s' : bsg_state St A) (w' : world) :
  (run (bsg_step data_step) fuel
     (buffered_shuffle_generator data buffer_size) w).2 = Suspended s' w' →
  bsg_sized (Z.to_nat buffer_size) s'.
Proof.
  apply (run_suspended_invariant (bsg_step data_step)
           (bsg_sized (Z.to_nat buffer_size))); [|done].
  intros s w0. apply bsg_sized_step.
Qed.

Lemma buffer_never_resized_witness :
  (run bsg_list_step 3
     (buffered_shuffle_generator [Some 1; Some 2; Some 3; Some 4] 2)
     {| heap := ∅; rng := [0; 0; 1] |}).2
  = Suspended (BsgYielded [Some 3; Some 4] [Some 1; None] 0 (Some 2))
      {| heap := ∅; rng := [1] |}
  ∧ bsg_sized (Z.to_nat 2)
      (BsgYielded [Some 3; Some 4] [Some 1; None] 0 (Some 2)).
Proof.
  split; [reflexivity|].
  apply (buffer_never_resized list_step [Some 1; Some 2; Some 3; Some 4] 2
           {| heap := ∅; rng := [0; 0; 1] |} 3 _
           {| heap := ∅; rng := [1] |}).
  reflexivity.
Defined.

(** ** Conservation at every point of a run *)

Section conservation.
Context {A : Type}.
Implicit Types (s : bsg_state (list (option A)) A).


Lemma flush_loop_length (buffer : list (option A)) :
  length (flush_loop buffer) ≤ length buffer.
Proof. apply length_filter. Qed.



End conservation.




(** ** How far the shuffle can move an item forward *)

Section advance.
Context {A : Type}.
Implicit Types (xs : list A) (buffer : list (option A)).

Lemma flush_loop_lookup buffer i (y : A) :
  buffer !! i = Some (Some y) → Some y ∈ flush_loop buffer.
Proof.
  intros Hi. unfold flush_loop. apply list_elem_of_filter. split; [by eexists|].
  by eapply list_elem_of_lookup_2.
Qed.

Lemma flush_loop_free_slot buffer i :
  buffer !! i = Some None → length (flush_loop buffer) < length buffer.
Proof.
  intros Hi. unfold flush_loop.
  apply (length_filter_lt _ _ None); [by eapply list_elem_of_lookup_2|].
  by intros [? ?].
Qed.

(** From a buffer with [free] empty slots, the first [j] items the fill
    loop yields were in the buffer or among the first [j + free - 1]
    incoming items. *)
Lemma fill_loop_advance xs buffer t out buffer' t' j :
  0 < length buffer →
  fill_loop (Some <$> xs) buffer t = (out, buffer', t') →
  1 ≤ j →
  take j out
    ⊆+ flush_loop buffer
       ++ take (j + (length buffer - length (flush_loop buffer)) - 1)
            (Some <$> xs).
Proof.
  revert buffer t out j.
  induction xs as [|x xs IH]; intros buffer t out j Hlen Hfill Hj.
  { simplify_eq/=. rewrite take_nil. apply submseteq_nil_l. }
  rewrite fmap_cons in Hfill. cbn [fill_loop] in Hfill.
  pose proof (randbelow_lt (length buffer) t Hlen) as Hlt.
  destruct (random.randbelow (length buffer) t) as [i t1]. simpl in Hlt.
  destruct (fill_loop (Some <$> xs) (<[i := Some x]> buffer) t1)
    as [[out1 b1] t2] eqn:Hrec.
  destruct (lookup_lt_is_Some_2 buffer i Hlt) as [held Hheld].
  rewrite Hheld in Hfill.
  pose proof (flush_loop_insert buffer i held (Some x) Hheld) as Hins.
  pose proof (flush_loop_length buffer) as Hc.
  assert (0 < length (<[i := Some x]> buffer)) as Hlen2
    by (by rewrite length_insert).
  change (flush_loop [Some x]) with [Some x] in Hins.
  destruct held as [y|]; simplify_eq/=.
  - change (flush_loop [Some y]) with [Some y] in Hins. simpl in Hins.
    pose proof (Permutation_length Hins) as Hlen3.
    rewrite length_app in Hlen3. simpl in Hlen3.
    destruct j as [|[|j]]; [lia| |].
    + change (take 1 (Some y :: out1)) with [Some y].
      apply submseteq_inserts_r, singleton_submseteq_l.
      by eapply flush_loop_lookup.
    + specialize (IH _ _ _ (S j) Hlen2 Hrec ltac:(lia)).
      rewrite length_insert in IH.
      replace (S (S j) + (length buffer - length (flush_loop buffer)) - 1)
        with (S (S j + (length buffer
                        - length (flush_loop (<[i := Some x]> buffer))) - 1))
        by lia.
      change (take (S (S j)) (Some y :: out1)) with (Some y :: take (S j) out1).
      change (take (S ?n) (Some x :: ?l)) with (Some x :: take n l).
      rewrite <-Permutation_middle.
      change (Some x :: flush_loop buffer ++ ?k)
        with ((Some x :: flush_loop buffer) ++ k).
      rewrite (Permutation_cons_append (flush_loop buffer)), <-Hins.
      simpl. by apply submseteq_skip.
  - change (flush_loop [None]) with (@nil (option A)) in Hins. simpl in Hins.
    pose proof (Permutation_length Hins) as Hlen3.
    rewrite length_app in Hlen3. simpl in Hlen3.
    pose proof (flush_loop_free_slot buffer i Hheld) as Hfree.
    specialize (IH _ _ _ j Hlen2 Hrec Hj). rewrite length_insert in IH.
    replace (j + (length buffer - length (flush_loop buffer)) - 1)
      with (S (j + (length buffer
                    - length (flush_loop (<[i := Some x]> buffer))) - 1)) by lia.
    change (take (S ?n) (Some x :: ?l)) with (Some x :: take n l).
    rewrite <-Permutation_middle.
    change (Some x :: flush_loop buffer ++ ?k)
      with ((Some x :: flush_loop buffer) ++ k).
    by rewrite (Permutation_cons_append (flush_loop buffer)), <-Hins.
Qed.

End advance.

Lemma shuffle_loops_advance {A} (xs : list A) buffer_size t out t' k :
  (1 ≤ buffer_size)%Z →
  shuffle_loops (Some <$> xs) buffer_size t = (out, t') →
  take k out ⊆+ take (k + Z.to_nat buffer_size - 1) (Some <$> xs).
Proof.
  intros Hbs Hloops. unfold shuffle_loops in Hloops.
  destruct (fill_loop _ _ t) as [[out1 b1] t1] eqn:Hfill.
  pose proof (shuffle_Permutation b1 t1) as Hsh.
  destruct (random.shuffle b1 t1) as [b2 t2]. simpl in Hsh. simplify_eq.
  assert (0 < length (replicate (Z.to_nat buffer_size) (@None A))) as Hlen
    by (rewrite length_replicate; lia).
  destruct (fill_loop_Permutation _ _ _ _ _ _ Hlen Hfill) as [Hlen1 Hperm].
  rewrite flush_loop_replicate_None, flush_loop_Some in Hperm. simpl in Hperm.
  rewrite length_replicate in Hlen1.
  destruct (decide (k ≤ length out1)) as [Hk|Hk].
  - rewrite take_app_le by done.
    destruct k as [|k]; [rewrite take_0; apply submseteq_nil_l|].
    pose proof (fill_loop_advance xs _ t out1 b1 t1 (S k) Hlen Hfill ltac:(lia))
      as Hadv.
    rewrite flush_loop_replicate_None, length_replicate in Hadv.
    replace (S k + Z.to_nat buffer_size - 1)
      with (S k + (Z.to_nat buffer_size - 0) - 1) by lia.
    exact Hadv.
  - rewrite (take_ge (Some <$> xs)).
    + etrans; [apply submseteq_take|].
      apply Permutation_submseteq.
      by rewrite (flush_loop_Permutation _ _ Hsh).
    + apply Permutation_length in Hperm. rewrite length_app in Hperm.
      pose proof (flush_loop_length b1). lia.
Qed.

(** X3: over an input without None, the shuffle can delay an item
    without bound but can bring it forward by at most buffer_size - 1
    positions: the first k items yielded are among the first
    k + buffer_size - 1 items of the input; so, when the items are
    distinct, the item at input position i is yielded at an output
    position p with i < p + buffer_size. *)
Theorem bounded_advance {A} (xs : list A) (buffer_size : Z) (w : world)
    (out : list (option A)) (w' : world) :
  (1 ≤ buffer_size)%Z →
  produces bsg_list_step (buffered_shuffle_generator (Some <$> xs) buffer_size) w
    out (Finished w') →
  (∀ k, take k out ⊆+ take (k + Z.to_nat buffer_size - 1) (Some <$> xs))
  ∧ (NoDup xs →
     ∀ p i x, out !! p = Some (Some x) → xs !! i = Some x →
              i < p + Z.to_nat buffer_size).
Proof.
  intros Hbs Hp.
  destruct (shuffle_loops (Some <$> xs) buffer_size (rng w)) as [out0 t] eqn:Hloops.
  pose proof (bsg_produces _ _ w _ _ Hbs Hloops) as Hp0.
  destruct (produces_det _ _ _ _ _ _ _ Hp0 Hp) as [<- _].
  assert (∀ k, take k out0 ⊆+ take (k + Z.to_nat buffer_size - 1) (Some <$> xs))
    as Hadv by (intros k; by eapply shuffle_loops_advance).
  split; [done|]. intros Hnodup p i x Hout Hxs.
  assert (Some x ∈ take (S p + Z.to_nat buffer_size - 1) (Some <$> xs)) as Hin.
  { eapply elem_of_submseteq; [|apply (Hadv (S p))].
    apply list_elem_of_lookup. exists p. by rewrite lookup_take_lt by lia. }
  apply list_elem_of_lookup in Hin as [i' Hi'].
  apply lookup_take_Some in Hi' as [Hi' Hlt].
  rewrite list_lookup_fmap in Hi'.
  destruct (xs !! i') as [x'|] eqn:Hx'; simplify_eq/=.
  pose proof (NoDup_lookup xs i i' x Hnodup Hxs Hx'). lia.
Qed.

Lemma bounded_advance_witness :
  ((1 ≤ 2)%Z
   ∧ produces bsg_list_step
       (buffered_shuffle_generator (Some <$> [10; 20; 30; 40]) 2)
       {| heap := ∅; rng := [0; 1; 1; 0; 0] |}
       [Some 20; Some 10; Some 30; Some 40]
       (Finished {| heap := ∅; rng := [] |})
   ∧ NoDup [10; 20; 30; 40]
   ∧ [Some 20; Some 10; Some 30; Some 40] !! 0 = Some (Some 20)
   ∧ [10; 20; 30; 40] !! 1 = Some 20)
  ∧ (∀ k, take k [Some 20; Some 10; Some 30; Some 40]
          ⊆+ take (k + Z.to_nat 2 - 1) (Some <$> [10; 20; 30; 40]))
  ∧ 1 < 0 + Z.to_nat 2.
Proof.
  assert (produces bsg_list_step
            (buffered_shuffle_generator (Some <$> [10; 20; 30; 40]) 2)
            {| heap := ∅; rng := [0; 1; 1; 0; 0] |}
            [Some 20; Some 10; Some 30; Some 40]
            (Finished {| heap := ∅; rng := [] |})) as Hp.
  { by apply (bsg_produces (Some <$> [10; 20; 30; 40]) 2
                {| heap := ∅; rng := [0; 1; 1; 0; 0] |}
                [Some 20; Some 10; Some 30; Some 40] []). }
  assert (NoDup [10; 20; 30; 40]) as Hnodup
    by (exact (bool_decide_unpack (NoDup [10; 20; 30; 40]) I)).
  split; [by split_and!|].
  destruct (bounded_advance [10; 20; 30; 40] 2 _ _ _ ltac:(lia) Hp)
    as [Hadv Hpos].
  split; [exact Hadv|].
  exact (Hpos Hnodup 0 1 20 eq_refl eq_refl).
Defined.

(** ** The shuffle does not look at the items *)

Section oblivious.
Context {A B : Type} (g : A → B).
Implicit Types (data buffer : list (option A)).

Abbreviation og := (fmap (M:=option) g).

Lemma flush_loop_fmap buffer :
  flush_loop (og <$> buffer) = og <$> flush_loop buffer.
Proof.
  induction buffer as [|[y|] buffer IH]; [done| |].
  - rewrite fmap_cons, (flush_loop_cons (og (Some y))), IH.
    by rewrite (flush_loop_cons (Some y)).
  - rewrite fmap_cons, (flush_loop_cons (og None)), IH.
    by rewrite (flush_loop_cons None).
Qed.

Lemma fill_loop_fmap data buffer t :
  fill_loop (og <$> data) (og <$> buffer) t
  = (og <$> (fill_loop data buffer t).1.1,
     og <$> (fill_loop data buffer t).1.2,
     (fill_loop data buffer t).2).
Proof.
  revert buffer t. induction data as [|item data IH]; intros buffer t; [done|].
  rewrite fmap_cons. cbn [fill_loop]. rewrite length_fmap.
  destruct (random.randbelow (length buffer) t) as [index t1].
  rewrite <-list_fmap_insert, IH, list_lookup_fmap.
  destruct (fill_loop data (<[index := item]> buffer) t1) as [[out b1] t2].
  by destruct (buffer !! index) as [[y|]|].
Qed.

Lemma shuffle_loops_fmap data buffer_size t :
  shuffle_loops (og <$> data) buffer_size t
  = (og <$> (shuffle_loops data buffer_size t).1,
     (shuffle_loops data buffer_size t).2).
Proof.
  unfold shuffle_loops.
  change (replicate (Z.to_nat buffer_size) (@None B))
    with (replicate (Z.to_nat buffer_size) (og None)).
  rewrite <-fmap_replicate, fill_loop_fmap.
  destruct (fill_loop data _ t) as [[out b1] t1]. simpl.
  rewrite shuffle_fmap.
  destruct (random.shuffle b1 t1) as [b2 t2]. simpl.
  by rewrite fmap_app, flush_loop_fmap.
Qed.

End oblivious.

(** X4: the slot choices and the drain order depend on the random state
    and on which inputs are None, never on what the items are: if the
    generator turns [data] into [out], then on the same random state it
    turns the input mapped item by item through any [g] into [out] mapped
    through [g].  Shuffling and then mapping gives the sequence that mapping
    and then shuffling gives. *)
Theorem shuffle_commutes_with_map {A B} (g : A → B) (data : list (option A))
    (buffer_size : Z) (w : world) (out : list (option A)) (w' : world) :
  (1 ≤ buffer_size)%Z →
  produces bsg_list_step (buffered_shuffle_generator data buffer_size) w
    out (Finished w') →
  produces bsg_list_step
    (buffered_shuffle_generator (fmap (M:=option) g <$> data) buffer_size) w
    (fmap (M:=option) g <$> out) (Finished w').
Proof.
  intros Hbs Hp.
  destruct (shuffle_loops data buffer_size (rng w)) as [out0 t] eqn:Hloops.
  pose proof (bsg_produces _ _ w _ _ Hbs Hloops) as Hp0.
  destruct (produces_det _ _ _ _ _ _ _ Hp0 Hp) as [<- Hw]. simplify_eq.
  apply bsg_produces; [done|].
  by rewrite shuffle_loops_fmap, Hloops.
Qed.

Lemma shuffle_commutes_with_map_witness :
  ((1 ≤ 2)%Z
   ∧ produces bsg_list_step
       (buffered_shuffle_generator [Some 1; None; Some 2; Some 3] 2)
       {| heap := ∅; rng := [1; 1; 0; 1; 0] |}
       [Some 1; Some 3; Some 2]
       (Finished {| heap := ∅; rng := [] |}))
  ∧ produces bsg_list_step
      (buffered_shuffle_generator
         (fmap (M:=option) (λ n, n * 10) <$> [Some 1; None; Some 2; Some 3]) 2)
      {| heap := ∅; rng := [1; 1; 0; 1; 0] |}
      (fmap (M:=option) (λ n, n * 10) <$> [Some 1; Some 3; Some 2])
      (Finished {| heap := ∅; rng := [] |}).
Proof.
  assert (produces bsg_list_step
            (buffered_shuffle_generator [Some 1; None; Some 2; Some 3] 2)
            {| heap := ∅; rng := [1; 1; 0; 1; 0] |}
            [Some 1; Some 3; Some 2]
            (Finished {| heap := ∅; rng := [] |})) as Hp.
  { by apply (bsg_produces [Some 1; None; Some 2; Some 3] 2
                {| heap := ∅; rng := [1; 1; 0; 1; 0] |}
                [Some 1; Some 3; Some 2] []). }
  split; [split; [lia|exact Hp]|].
  apply (shuffle_commutes_with_map (λ n, n * 10)
           [Some 1; None; Some 2; Some 3] 2 _ _ _ ltac:(lia) Hp).
Defined.

(** ** Streaming sources *)

Section streaming.
Context {St V : Type} (P : world → Prop) (step : stepper St V).

Lemma streams_produces d items ending w :
  streams P step d items ending → P w →
  produces step d w items (ended ending w).
Proof.
  intros Hs Hw. induction Hs as [d Hd|d e Hd|d d' items ending Hd _ IH
                                 |d a d' items ending Hd _ IH].
  - apply produces_stop. by apply Hd.
  - apply produces_raise. by apply Hd.
  - eapply produces_tau; [by apply Hd|done].
  - eapply produces_yield; [by apply Hd|done].
Qed.

End streaming.

Lemma list_streams {V} (data : list V) :
  streams (λ _, True) list_step data data None.
Proof.
  induction data as [|a data IH].
  - by apply streams_stop.
  - by eapply streams_yield.
Qed.

Section chunk_streams.
Context (fs : filesystem) {A : Type} (str : string → A).

Lemma readable_read_chunks paths chunks :
  readable fs paths chunks ↔ read_chunks fs paths = (chunks, None).
Proof.
  split.
  - intros Hread. induction Hread as [|p lines paths chunks Hp _ IH]; [done|].
    simpl. by rewrite Hp, IH.
  - revert chunks. induction paths as [|p paths IH]; intros chunks Hrc.
    + simpl in Hrc. simplify_eq. constructor.
    + simpl in Hrc. destruct (gzip_lines fs p) as [e|lines] eqn:Hp; [done|].
      destruct (read_chunks fs paths) as [cs e]. simplify_eq.
      constructor; [done|]. by apply IH.
Qed.

Lemma cdg_items_streams copy l i data items ending :
  streams (list_at copy l) (cdg_step fs str) (CdgChunks copy i) items ending →
  streams (list_at copy l) (cdg_step fs str) (CdgItems copy i data)
    ((Some ∘ str <$> data) ++ items) ending.
Proof.
  intros Hs. induction data as [|item data IH].
  - by eapply streams_tau.
  - by eapply streams_yield.
Qed.

(** Once the copy is made the chunk generator streams: it changes
    nothing, and yields the lines of the files it can read, in list order,
    up to the first file it cannot. *)
Lemma cdg_chunks_streams copy done rest :
  streams (list_at copy (done ++ rest)) (cdg_step fs str)
    (CdgChunks copy (length done))
    (Some ∘ str <$> concat (read_chunks fs rest).1) (read_chunks fs rest).2.
Proof.
  revert done. induction rest as [|p rest IH]; intros done.
  - apply streams_stop. intros w Hw. unfold list_at in Hw. simpl.
    rewrite Hw, app_nil_r. by rewrite lookup_ge_None_2.
  - simpl. destruct (gzip_lines fs p) as [e|lines] eqn:Hp.
    + apply streams_raise. intros w Hw. unfold list_at in Hw. simpl.
      by rewrite Hw, list_lookup_middle, Hp.
    + specialize (IH (done ++ [p])).
      rewrite <-(assoc (++)), length_app, Nat.add_1_r in IH. simpl in IH.
      destruct (read_chunks fs rest) as [chunks ending]. simpl in *.
      eapply streams_tau.
      { intros w Hw. unfold list_at in Hw. simpl.
        by rewrite Hw, list_lookup_middle, Hp. }
      rewrite fmap_app. by apply cdg_items_streams.
Qed.

End chunk_streams.

(** ** The shuffle generator over a streaming source *)

Lemma flush_produces_any {St A} (data_step : stepper St (option A)) rest w :
  produces (bsg_step data_step) (BsgFlush rest) w (flush_loop rest) (Finished w).
Proof.
  induction rest as [|[y|] rest IH].
  - by apply produces_stop.
  - unfold flush_loop. rewrite filter_cons_True by eauto.
    by eapply produces_yield.
  - unfold flush_loop. rewrite filter_cons_False by (by intros [? ?]).
    by eapply produces_tau.
Qed.

Lemma bsg_streams_produces {St A} (P : world → Prop)
    (data_step : stepper St (option A)) d items ending buffer w out b1 t1 :
  streams P data_step d items ending →
  (∀ t w, P w → P (set_rng t w)) →
  P w →
  0 < length buffer →
  fill_loop items buffer (rng w) = (out, b1, t1) →
  produces (bsg_step data_step) (BsgLoop d buffer) w
    (out ++ (after_source ending b1 t1).1)
    (ended ending (set_rng (after_source ending b1 t1).2 w)).
Proof.
  intros Hs Hrng. revert buffer w out.
  induction Hs as [d Hd|d e Hd|d d' items ending Hd _ IH
                   |d a d' items ending Hd _ IH];
    intros buffer w out Hw Hlen Hfill.
  - simpl in Hfill. injection Hfill as <- <- <-. simpl.
    destruct (random.shuffle buffer (rng w)) as [b' t'] eqn:Hsh. simpl.
    eapply produces_tau; [simpl; by rewrite (Hd w Hw), Hsh|].
    apply flush_produces_any.
  - simpl in Hfill. injection Hfill as <- <- <-. simpl.
    unfold set_rng. rewrite world_eta.
    apply produces_raise. simpl. by rewrite (Hd w Hw).
  - eapply produces_tau; [simpl; by rewrite (Hd w Hw)|]. by apply IH.
  - simpl in Hfill.
    pose proof (randbelow_lt (length buffer) (rng w) Hlen) as Hlt.
    pose proof (randrange_0 (length buffer) (rng w) Hlen) as Hrr.
    destruct (random.randbelow (length buffer) (rng w)) as [index t'].
    simpl in Hlt.
    destruct (fill_loop items (<[index := a]> buffer) t')
      as [[out' b'] t''] eqn:Hrec.
    destruct (lookup_lt_is_Some_2 buffer index Hlt) as [held Hheld].
    rewrite Hheld in Hfill.
    assert (b' = b1 ∧ t'' = t1) as [-> ->] by (destruct held; by simplify_eq).
    assert (produces (bsg_step data_step) (BsgLoop d' (<[index := a]> buffer))
              (set_rng t' w) (out' ++ (after_source ending b1 t1).1)
              (ended ending (set_rng (after_source ending b1 t1).2 w))) as Hnext.
    { apply (IH (<[index := a]> buffer) (set_rng t' w) out');
        [by apply Hrng|by rewrite length_insert|done]. }
    destruct held as [y|]; simplify_eq/=.
    + eapply produces_yield; [simpl; by rewrite (Hd w Hw), Hrr, Hheld|].
      by eapply produces_tau.
    + eapply produces_tau; [simpl; by rewrite (Hd w Hw), Hrr, Hheld|]. done.
Qed.

(** ** Through the wrappers of [__iter__] *)

Section wrappers_ended.
Context (fs : filesystem) {A : Type} (str : string → A).

Lemma run_gen_inr fuel b w :
  run (gen_step fs str) fuel (inr b) w
  = ((run (bsg_step (cdg_step fs str)) fuel b w).1,
     outcome_map inr (run (bsg_step (cdg_step fs str)) fuel b w).2).
Proof.
  revert b w. induction fuel as [|n IH]; intros b w; [done|].
  simpl.
  destruct (bsg_step (cdg_step fs str) b w) as [b1 w1|item b1 w1|w1|e w1];
    try done.
  rewrite IH. by destruct (run (bsg_step (cdg_step fs str)) n b1 w1).
Qed.

Lemma gen_inl_produces c w out ending w' :
  produces (cdg_step fs str) c w out (ended ending w') →
  produces (gen_step fs str) (inl c) w out (ended ending w').
Proof.
  intros [n Hn]. exists n. intros m Hm.
  rewrite run_gen_inl, (Hn m Hm). simpl. by rewrite outcome_map_ended.
Qed.

Lemma gen_inr_produces b w out ending w' :
  produces (bsg_step (cdg_step fs str)) b w out (ended ending w') →
  produces (gen_step fs str) (inr b) w out (ended ending w').
Proof.
  intros [n Hn]. exists n. intros m Hm.
  rewrite run_gen_inr, (Hn m Hm). simpl. by rewrite outcome_map_ended.
Qed.

End wrappers_ended.

(** ** Reading the chunk files *)

Section reading.
Context (fs : filesystem).

Lemma concat_Permutation {C} (ls1 ls2 : list (list C)) :
  ls1 ≡ₚ ls2 → concat ls1 ≡ₚ concat ls2.
Proof.
  induction 1 as [|x l1 l2 _ IH|x y l|l1 l2 l3 _ IH1 _ IH2]; simpl.
  - done.
  - by rewrite IH.
  - by rewrite !(assoc (++)), (comm (++) y x).
  - by rewrite IH1.
Qed.


(** A file that cannot be read stops the loop, after the files before
    it, with its exception. *)
Lemma read_chunks_app_fail good bad more chunks e :
  readable fs good chunks → gzip_lines fs bad = inl e →
  read_chunks fs (good ++ bad :: more) = (chunks, Some e).
Proof.
  intros Hread Hbad.
  induction Hread as [|p lines good chunks Hp _ IH]; simpl.
  - by rewrite Hbad.
  - by rewrite Hp, IH.
Qed.


Lemma chunk_lines_Some p lines :
  chunk_lines fs p = Some lines ↔ gzip_lines fs p = inr lines.
Proof.
  unfold chunk_lines. destruct (gzip_lines fs p); naive_solver.
Qed.

(** The lines read are lines of readable files of the list. *)
Lemma read_chunks_submseteq paths :
  concat (read_chunks fs paths).1 ⊆+ concat (omap (chunk_lines fs) paths).
Proof.
  induction paths as [|p paths IH]; [done|].
  rewrite omap_cons. unfold chunk_lines at 1. cbn [read_chunks].
  destruct (gzip_lines fs p) as [e|lines]; simpl; [apply submseteq_nil_l|].
  destruct (read_chunks fs paths) as [chunks ending]. simpl in *.
  by apply submseteq_skips_l.
Qed.

Lemma readable_omap paths chunks :
  readable fs paths chunks → omap (chunk_lines fs) paths = chunks.
Proof.
  induction 1 as [|p lines paths chunks Hp _ IH]; [done|].
  apply chunk_lines_Some in Hp. by rewrite omap_cons, Hp, IH.
Qed.

Lemma readable_Forall paths :
  Forall (λ p, is_Some (chunk_lines fs p)) paths ↔
  readable fs paths (omap (chunk_lines fs) paths).
Proof.
  split.
  - induction 1 as [|p paths [lines Hp] _ IH]; [constructor|].
    rewrite omap_cons, Hp. constructor; [by apply chunk_lines_Some|done].
  - induction paths as [|p paths IH]; [constructor|].
    rewrite omap_cons. destruct (chunk_lines fs p) as [lines|] eqn:Hp.
    + intros Hread. apply Forall2_cons in Hread as [_ Hread].
      constructor; [by eexists|by apply IH].
    + intros Hread. apply Forall2_length in Hread. exfalso.
      assert (length (omap (chunk_lines fs) paths) ≤ length paths) as Hle.
      { clear. induction paths as [|q paths IH]; [done|].
        rewrite omap_cons. destruct (chunk_lines fs q); simpl; lia. }
      simpl in Hread. lia.
Qed.

(** Reading is per file: reordering the paths reorders the chunks. *)
Lemma readable_Permutation paths paths' chunks :
  readable fs paths chunks → paths' ≡ₚ paths →
  ∃ chunks', readable fs paths' chunks' ∧ chunks' ≡ₚ chunks.
Proof.
  intros Hread Hperm. exists (omap (chunk_lines fs) paths'). split.
  - apply (proj1 (readable_Forall paths')). rewrite Hperm.
    apply (proj2 (readable_Forall paths)).
    by rewrite (readable_omap paths chunks Hread).
  - by rewrite Hperm, (readable_omap paths chunks Hread).
Qed.

End reading.

Section chunk_start.
Context (fs : filesystem) {A : Type} (str : string → A).

(** The whole chunk generator, shuffling off: a copy is made, then the
    files are streamed. *)
Lemma cdg_start_produces paths w l :
  heap w !! paths = Some l →
  produces (cdg_step fs str) (chunked_data_generator paths false) w
    (Some ∘ str <$> concat (read_chunks fs l).1)
    (ended (read_chunks fs l).2 (alloc l w).2).
Proof.
  intros Hheap. eapply produces_tau; [simpl; by rewrite Hheap|].
  apply (streams_produces (list_at (alloc l w).1 l)).
  - apply (cdg_chunks_streams fs str _ [] l).
  - unfold list_at. simpl. apply lookup_insert_eq.
Qed.

End chunk_start.

(** X7: a pass with shuffling off over a list in which some file cannot
    be read yields, through the transform stage, all lines of the files
    before the first such file, each file's lines in order, and then
    raises the exception that the reading of that file raised; no line of
    a later file is yielded. *)
Theorem unshuffled_pass_stops_at_bad_file (fs : filesystem) {A}
    (str : string → A) (self : ChunkedDataset) (g : option A → option A)
    (w : world) (good : list string) (bad : string) (more : list string)
    (chunks : list (list string)) (e : exn) :
  shuffle self = false →
  heap w !! chunk_file_paths self = Some (good ++ bad :: more) →
  readable fs good chunks →
  gzip_lines fs bad = inl e →
  transform_computes (transform self) g (Some ∘ str <$> concat chunks) →
  ∃ w',
    produces (iter_step fs str) (ChunkedDataset_iter self) w
      (g <$> (Some ∘ str <$> concat chunks))
      (Raised e w').
Proof.
  intros Hsh Hheap Hread Hbad Hg. unfold ChunkedDataset_iter. rewrite Hsh.
  exists (alloc (good ++ bad :: more) w).2.
  apply (tg_produces_ended _ _ _ _ _ _ (Some e)); [|done].
  apply (gen_inl_produces fs str _ _ _ (Some e)).
  pose proof (cdg_start_produces fs str _ w _ Hheap) as Hp.
  by rewrite (read_chunks_app_fail fs good bad more chunks e Hread Hbad) in Hp.
Qed.

Lemma unshuffled_pass_stops_at_bad_file_witness :
  (shuffle (demo_dataset false 1024) = false
   ∧ heap (broken_world []) !! chunk_file_paths (demo_dataset false 1024)
     = Some (["data/a.gz"] ++ "data/latin1.gz" :: ["data/b.gz"])
   ∧ readable demo_fs ["data/a.gz"] [["a"; "b"]]
   ∧ gzip_lines demo_fs "data/latin1.gz" = inl UnicodeDecodeError
   ∧ transform_computes None id [Some "a"; Some "b"])
  ∧ ∃ w',
      produces (iter_step demo_fs id)
        (ChunkedDataset_iter (demo_dataset false 1024)) (broken_world [])
        [Some "a"; Some "b"] (Raised UnicodeDecodeError w').
Proof.
  assert (readable demo_fs ["data/a.gz"] [["a"; "b"]]) as Hread
    by (repeat constructor).
  assert (transform_computes (V:=option string) None id [Some "a"; Some "b"])
    as Hg by (by repeat constructor).
  split; [split_and!; [reflexivity|reflexivity|exact Hread|reflexivity|exact Hg]|].
  exact (unshuffled_pass_stops_at_bad_file demo_fs id
           (demo_dataset false 1024) id (broken_world [])
           ["data/a.gz"] "data/latin1.gz" ["data/b.gz"] [["a"; "b"]]
           UnicodeDecodeError eq_refl eq_refl Hread eq_refl Hg).
Defined.



(** ** Passes with the shuffle stage *)

Section shuffled.
Context (fs : filesystem) {A : Type} (str : string → A).

(** The first step of the chunk generator: a new list object, shuffled
    in place when asked; the caller's list is as it was. *)
Lemma cdg_start_step paths sh w l :
  heap w !! paths = Some l →
  ∃ copy l' w1,
    cdg_step fs str (chunked_data_generator paths sh) w
    = Tau (CdgChunks copy 0) w1
    ∧ list_at copy l' w1
    ∧ l' ≡ₚ l
    ∧ list_at paths l w1.
Proof.
  intros Hheap. unfold list_at. simpl. rewrite Hheap.
  assert (fresh (dom (heap w)) ≠ paths) as Hne.
  { intros Heq. apply (is_fresh (dom (heap w))). rewrite Heq.
    by eapply elem_of_dom_2. }
  destruct sh.
  - pose proof (shuffle_Permutation l (rng w)) as Hperm.
    destruct (random.shuffle l (rng w)) as [l' t']. simpl in Hperm.
    eexists _, l', _. split_and!; [done| |done|]; simpl.
    + apply lookup_insert_eq.
    + by rewrite !lookup_insert_ne.
  - eexists _, l, _. split_and!; [done| |done|]; simpl.
    + apply lookup_insert_eq.
    + by rewrite lookup_insert_ne.
Qed.

Lemma flush_loop_lines (lines : list string) :
  flush_loop (Some ∘ str <$> lines) = Some ∘ str <$> lines.
Proof. by rewrite list_fmap_compose, flush_loop_Some. Qed.

Lemma transform_computes_submseteq {V} (transform : option (callable V))
    (g : V → V) (items items' : list V) :
  items' ⊆+ items →
  transform_computes transform g items → transform_computes transform g items'.
Proof.
  intros Hsub. unfold transform_computes.
  assert (∀ P : V → Prop, Forall P items → Forall P items') as Hall.
  { intros P. rewrite !Forall_forall. intros HP item Hin.
    apply HP. by eapply elem_of_submseteq. }
  destruct transform as [f|]; [|apply Hall].
  destruct (truthy f) as [e|[|]]; [done|apply Hall..].
Qed.

(** A pass with the shuffle stage: the files are taken in a shuffled
    order [l'] of the list; what is yielded is, through the transform,
    among the lines read, and all of them when every file could be read. *)
Lemma shuffled_pass_produces (self : ChunkedDataset)
    (g : option A → option A) w l :
  shuffle self = true →
  (1 ≤ buffer_size self)%Z →
  heap w !! chunk_file_paths self = Some l →
  transform_computes (transform self) g
    (Some ∘ str <$> concat (omap (chunk_lines fs) l)) →
  ∃ l' out w',
    l' ≡ₚ l
    ∧ produces (iter_step fs str) (ChunkedDataset_iter self) w
        (g <$> out)
        (ended (read_chunks fs l').2 w')
    ∧ out ⊆+ (Some ∘ str <$> concat (read_chunks fs l').1)
    ∧ ((read_chunks fs l').2 = None →
       out ≡ₚ Some ∘ str <$> concat (read_chunks fs l').1)
    ∧ list_at (chunk_file_paths self) l w'.
Proof.
  intros Hsh Hbs Hheap Hg.
  destruct (cdg_start_step (chunk_file_paths self) true w l Hheap)
    as (copy & l' & w1 & Hstep & Hcopy & Hperm & Hkept).
  set (items := Some ∘ str <$> concat (read_chunks fs l').1).
  set (buffer := replicate (Z.to_nat (buffer_size self)) (@None A)).
  assert (0 < length buffer) as Hlen
    by (unfold buffer; rewrite length_replicate; lia).
  destruct (fill_loop items buffer (rng w1)) as [[out0 b1] t1] eqn:Hfill.
  destruct (fill_loop_Permutation _ _ _ _ _ _ Hlen Hfill) as [_ Hcons].
  assert (flush_loop buffer = []) as Hb by apply flush_loop_replicate_None.
  assert (flush_loop items = items) as Hi by apply flush_loop_lines.
  rewrite Hb, Hi in Hcons. simpl in Hcons.
  assert (out0 ++ (after_source (read_chunks fs l').2 b1 t1).1 ⊆+ items)
    as Hsub.
  { trans (out0 ++ flush_loop b1); [|by apply Permutation_submseteq].
    apply submseteq_skips_l.
    destruct (read_chunks fs l').2; simpl; [apply submseteq_nil_l|].
    apply Permutation_submseteq, flush_loop_Permutation, shuffle_Permutation. }
  exists l', (out0 ++ (after_source (read_chunks fs l').2 b1 t1).1),
    (set_rng (after_source (read_chunks fs l').2 b1 t1).2 w1).
  split_and!.
  - done.
  - unfold ChunkedDataset_iter. rewrite Hsh.
    apply tg_produces_ended.
    + apply gen_inr_produces.
      eapply produces_tau; [simpl; by rewrite decide_False by lia|].
      eapply produces_tau.
      { cbn [bsg_step]. by rewrite Hstep. }
      apply (bsg_streams_produces (list_at copy l') (cdg_step fs str)
               (CdgChunks copy 0) items (read_chunks fs l').2 buffer w1
               out0 b1 t1); [|done..].
      apply (cdg_chunks_streams fs str copy [] l').
    + apply (transform_computes_submseteq _ _ _ _ Hsub).
      eapply transform_computes_submseteq; [|exact Hg].
      unfold items. apply fmap_submseteq.
      etrans; [apply read_chunks_submseteq|].
      apply Permutation_submseteq, concat_Permutation. by rewrite Hperm.
  - exact Hsub.
  - intros Hnone. rewrite Hnone. simpl.
    trans (out0 ++ flush_loop b1); [|exact Hcons].
    f_equiv. apply flush_loop_Permutation, shuffle_Permutation.
  - exact Hkept.
Qed.

End shuffled.

(** X8: with [shuffle_chunks] the chunk generator reorders files, not
    lines: when every file of the list can be read it runs to completion
    and yields the chunks whole, each file's lines together and in file
    order, the files taken in some permutation of the list; the caller's
    list is left as it was. *)
Theorem shuffled_chunks_stay_whole (fs : filesystem) {A} (str : string → A)
    (paths : loc) (w : world) (l : list string) (chunks : list (list string)) :
  heap w !! paths = Some l →
  readable fs l chunks →
  ∃ l' chunks' w',
    l' ≡ₚ l
    ∧ readable fs l' chunks'
    ∧ chunks' ≡ₚ chunks
    ∧ produces (cdg_step fs str) (chunked_data_generator paths true) w
        (Some ∘ str <$> concat chunks') (Finished w')
    ∧ heap w' !! paths = Some l.
Proof.
  intros Hheap Hread.
  destruct (cdg_start_step fs str paths true w l Hheap)
    as (copy & l' & w1 & Hstep & Hcopy & Hperm & Hkept).
  destruct (readable_Permutation fs l l' chunks Hread Hperm)
    as (chunks' & Hread' & Hchunks).
  exists l', chunks', w1. split_and!; [done..| |done].
  eapply produces_tau; [done|].
  pose proof (streams_produces _ _ _ _ _ w1
                (cdg_chunks_streams fs str copy [] l') Hcopy) as Hp.
  apply readable_read_chunks in Hread'. by rewrite Hread' in Hp.
Qed.

Lemma shuffled_chunks_stay_whole_witness :
  (heap (demo_world [0]) !! 0 = Some ["data/a.gz"; "data/b.gz"]
   ∧ readable demo_fs ["data/a.gz"; "data/b.gz"] [["a"; "b"]; ["c"]])
  ∧ ∃ l' chunks' w',
      l' ≡ₚ ["data/a.gz"; "data/b.gz"]
      ∧ readable demo_fs l' chunks'
      ∧ chunks' ≡ₚ [["a"; "b"]; ["c"]]
      ∧ produces (cdg_step demo_fs id) (chunked_data_generator 0 true)
          (demo_world [0]) (Some ∘ id <$> concat chunks') (Finished w')
      ∧ heap w' !! 0 = Some ["data/a.gz"; "data/b.gz"].
Proof.
  assert (readable demo_fs ["data/a.gz"; "data/b.gz"] [["a"; "b"]; ["c"]])
    as Hread by (repeat constructor).
  split; [split; [reflexivity|exact Hread]|].
  exact (shuffled_chunks_stay_whole demo_fs id 0 (demo_world [0])
           ["data/a.gz"; "data/b.gz"] [["a"; "b"]; ["c"]] eq_refl Hread).
Defined.

(** X9: a pass with shuffling on, buffer_size >= 1, every chunk file
    readable and a transform stage that gives [g item] on each line runs
    to completion and yields every line of every file exactly once,
    through the transform: the output is a permutation of what the pass
    with shuffling off yields.  The dataset's path list is left as it
    was. *)
Theorem shuffled_pass_keeps_lines (fs : filesystem) {A} (str : string → A)
    (self : ChunkedDataset) (g : option A → option A) (w : world)
    (l : list string) (chunks : list (list string)) :
  shuffle self = true →
  (1 ≤ buffer_size self)%Z →
  heap w !! chunk_file_paths self = Some l →
  readable fs l chunks →
  transform_computes (transform self) g (Some ∘ str <$> concat chunks) →
  ∃ out w',
    produces (iter_step fs str) (ChunkedDataset_iter self) w out (Finished w')
    ∧ out ≡ₚ g <$> (Some ∘ str <$> concat chunks)
    ∧ heap w' !! chunk_file_paths self = Some l.
Proof.
  intros Hsh Hbs Hheap Hread Hg.
  rewrite <-(readable_omap fs l chunks Hread) in Hg.
  destruct (shuffled_pass_produces fs str self g w l Hsh Hbs Hheap Hg)
    as (l' & out & w' & Hperm & Hp & _ & Hall & Hkept).
  destruct (readable_Permutation fs l l' chunks Hread Hperm)
    as (chunks' & Hread' & Hchunks).
  apply readable_read_chunks in Hread'. rewrite Hread' in Hp, Hall.
  exists (g <$> out), w'. split_and!; [done| |done].
  rewrite (Hall eq_refl). simpl. do 2 f_equiv.
  by apply concat_Permutation.
Qed.

Lemma shuffled_pass_keeps_lines_witness :
  (shuffle (demo_dataset true 2) = true
   ∧ (1 ≤ buffer_size (demo_dataset true 2))%Z
   ∧ heap (demo_world [0; 1; 1; 0; 1]) !! chunk_file_paths (demo_dataset true 2)
     = Some ["data/a.gz"; "data/b.gz"]
   ∧ readable demo_fs ["data/a.gz"; "data/b.gz"] [["a"; "b"]; ["c"]]
   ∧ transform_computes None id [Some "a"; Some "b"; Some "c"])
  ∧ ∃ out w',
      produces (iter_step demo_fs id) (ChunkedDataset_iter (demo_dataset true 2))
        (demo_world [0; 1; 1; 0; 1]) out (Finished w')
      ∧ out ≡ₚ [Some "a"; Some "b"; Some "c"]
      ∧ heap w' !! chunk_file_paths (demo_dataset true 2)
        = Some ["data/a.gz"; "data/b.gz"].
Proof.
  assert (readable demo_fs ["data/a.gz"; "data/b.gz"] [["a"; "b"]; ["c"]])
    as Hread by (repeat constructor).
  assert (transform_computes (V:=option string) None id
            [Some "a"; Some "b"; Some "c"]) as Hg by (by repeat constructor).
  split; [split_and!; [reflexivity|simpl; lia|reflexivity|exact Hread|exact Hg]|].
  exact (shuffled_pass_keeps_lines demo_fs id (demo_dataset true 2) id
           (demo_world [0; 1; 1; 0; 1]) ["data/a.gz"; "data/b.gz"]
           [["a"; "b"]; ["c"]] eq_refl ltac:(simpl; lia) eq_refl Hread Hg).
Defined.





(** ** The stored path list *)






Lemma merge_sort_Permutation_eq (l1 l2 : list string) :
  l1 ≡ₚ l2 → merge_sort String.le l1 = merge_sort String.le l2.
Proof.
  intros Hperm. apply (Sorted_unique String.le).
  - apply Sorted_merge_sort; apply _.
  - apply Sorted_merge_sort; apply _.
  - by rewrite !merge_sort_Permutation.
Qed.


(** X12: the stored list does not depend on the order in which the
    directory is listed: two listings with the same entries give the same
    dataset and the same world. *)
Theorem listing_order_irrelevant (fs1 fs2 : filesystem) {A} (path : string)
    (shuffle : bool) (buffer_size : Z)
    (transform : option (callable (option A))) (w : world)
    (entries1 entries2 : list DirEntry) :
  scandir fs1 path = Some entries1 →
  scandir fs2 path = Some entries2 →
  entries1 ≡ₚ entries2 →
  ChunkedDataset_init fs1 path shuffle buffer_size transform w
  = ChunkedDataset_init fs2 path shuffle buffer_size transform w.
Proof.
  intros H1 H2 Hperm.
  rewrite (init_scanned fs1 path shuffle buffer_size transform w entries1 H1).
  rewrite (init_scanned fs2 path shuffle buffer_size transform w entries2 H2).
  do 4 f_equal. apply merge_sort_Permutation_eq. by rewrite Hperm.
Qed.

Lemma listing_order_irrelevant_witness :
  ChunkedDataset_init demo_fs (A:=string) "data" true 2 None empty_world
  = ChunkedDataset_init relisted_fs "data" true 2 None empty_world.
Proof.
  refine (listing_order_irrelevant demo_fs relisted_fs "data" true 2 None
            empty_world _ _ eq_refl eq_refl _).
  symmetry. apply reverse_Permutation.
Defined.


